(** * datastore/mutation.go: mutations, transform attachment and the batch builder

    A shallow embedding of [Mutation], its four constructors,
    [WithTransforms], [setMutationProtoPropertyMaskForTransforms] and
    [mutationProtos], followed by the properties of the mutation
    subsystem that hold of them.

    Conventions of the embedding:
    - a Go pointer to a struct is an [option]: [None] is [nil];
    - a slice is a [list], the nil slice being the empty list, except
      where the code tests a slice against nil ([MultiError]), where it
      is an [option (list _)];
    - a Go map is a [gmap];
    - in-place updates of the receiver are explicit state passing: a
      method returns the receiver as it is after the call;
    - a nil-pointer dereference is the [Panic] outcome of [result]. *)

From stdpp Require Import gmap strings list fin_maps.

(** ** Outcomes of code that can fault *)

Inductive result (A : Type) : Type :=
| Ret (a : A)
| Panic.
Arguments Ret {A} a.
Arguments Panic {A}.

#[global] Instance result_ret : MRet result := λ A a, Ret a.
#[global] Instance result_bind : MBind result := λ A B f r,
  match r with
  | Ret a => f a
  | Panic => Panic
  end.

(** [p.f] for a pointer [p]: faults on nil. *)
Definition deref {A : Type} (p : option A) : result A :=
  match p with
  | Some a => Ret a
  | None => Panic
  end.

(** ** Errors

    [ErrInvalidKey] is the package's sentinel; the other errors of this
    file are made on the spot by [errors.New] and [fmt.Errorf], whose
    one operand is the key. Errors coming from elsewhere (the entity
    encoder) are values of the same type. *)

Inductive error (K : Type) : Type :=
| ErrInvalidKey
| errors_New (text : string)
| fmt_Errorf (format : string) (k : option K).
Arguments ErrInvalidKey {K}.
Arguments errors_New {K} text.
Arguments fmt_Errorf {K} format k.

(** [MultiError] is a slice of errors, with nil entries. *)
Abbreviation MultiError K := (list (option (error K))).

(** ** Iteration order of [range] over a map

    Go leaves the order in which [range] visits the keys of a map
    unspecified, and it may differ from one loop to the next. Every
    loop over a map therefore takes the order as an argument: any
    rearrangement of the keys. *)

Record MapOrder : Type := {
  order_of :> list string → list string;
  order_perm : ∀ l, order_of l ≡ₚ l
}.

Definition range_names {V : Type} (ord : MapOrder) (m : gmap string V) : list string :=
  ord (map_to_list m).*1.

(** ** Collaborators

    Types and functions of the package that mutation.go uses and that
    are declared in other files: the key (key.go), the entity encoder
    (save.go) and the wire messages (datastorepb). They are parameters
    of the development. Methods with a pointer receiver take the
    pointer. [saveEntity] returns an entity or an error. *)

Class Collaborators : Type := {
  Key : Type;
  Src : Type;
  pbKey : Type;
  pbValue : Type;
  pbEntity : Type;
  pbPropertyTransform : Type;
  Properties : pbEntity → gmap string pbValue;
  valid : option Key → bool;
  Incomplete : option Key → bool;
  stringInternal : option Key → string;
  keyToProto : option Key → pbKey;
  saveEntity : option Key → Src → pbEntity + error Key
}.

Section Model.
Context {C : Collaborators}.

(** ** The wire message [pb.Mutation] *)

Inductive Mutation_Operation : Type :=
| Mutation_Insert (Insert : pbEntity)
| Mutation_Update (Update : pbEntity)
| Mutation_Upsert (Upsert : pbEntity)
| Mutation_Delete (Delete : pbKey).

Record pbPropertyMask : Type := { Paths : list string }.

Record pbMutation : Type := {
  Operation : option Mutation_Operation;
  PropertyMask : option pbPropertyMask;
  PropertyTransforms : list pbPropertyTransform
}.

(** [&pb.Mutation{Operation: o}] *)
Definition pbMutation_of (o : Mutation_Operation) : pbMutation :=
  {| Operation := Some o; PropertyMask := None; PropertyTransforms := [] |}.

(** ** [PropertyTransform] (transform.go): the field this file reads *)

Record PropertyTransform : Type := { pb : option pbPropertyTransform }.

(** ** [Mutation] *)

Record Mutation : Type := {
  key : option Key;
  mut : option pbMutation;
  err : option (error Key)
}.

(** [Mutation{}] *)
Definition zero_Mutation : Mutation :=
  {| key := None; mut := None; err := None |}.

(** [&Mutation{err: e}] *)
Definition Mutation_err (e : error Key) : Mutation :=
  {| key := None; mut := None; err := Some e |}.

(** [m.err = e] *)
Definition set_err (m : Mutation) (e : error Key) : Mutation :=
  {| key := key m; mut := mut m; err := Some e |}.

(** The type assertion [o.( *pb.Mutation_Delete )]; false on a nil
    interface value. *)
Definition is_Mutation_Delete (o : option Mutation_Operation) : bool :=
  match o with
  | Some (Mutation_Delete _) => true
  | _ => false
  end.

(** [isDelete] reads [m.mut.Operation]: it faults when [m.mut] is nil. *)
Definition isDelete (m : Mutation) : result bool :=
  pm ← deref (mut m);
  mret (is_Mutation_Delete (Operation pm)).

(** ** The errors of [WithTransforms] and of the constructors *)

Definition errUninitializedMutation : error Key :=
  errors_New "datastore: WithTransforms called on uninitialized mutation".
Definition errTransformOnDelete : error Key :=
  errors_New "datastore: property transforms cannot be applied to a delete mutation".
Definition errUninitializedTransform : error Key :=
  errors_New "datastore: WithTransforms called with an uninitialized PropertyTransform".
Definition errIncompleteUpdate (k : option Key) : error Key :=
  fmt_Errorf "datastore: can't update the incomplete key: %v" k.
Definition errIncompleteDelete (k : option Key) : error Key :=
  fmt_Errorf "datastore: can't delete the incomplete key: %v" k.

(** ** [setMutationProtoPropertyMaskForTransforms] *)

(** [for name := range names { paths = append(paths, name) }] *)
Definition append_names (paths names : list string) : list string :=
  foldl (λ acc name, acc ++ [name]) paths names.

Definition set_PropertyMask (pm : pbMutation) (mask : pbPropertyMask) : pbMutation :=
  {| Operation := Operation pm;
     PropertyMask := Some mask;
     PropertyTransforms := PropertyTransforms pm |}.

Definition setMutationProtoPropertyMaskForTransforms
    (ord : MapOrder) (pm : pbMutation) : pbMutation :=
  if length (PropertyTransforms pm) =? 0 then pm
  else
    let paths :=
      match Operation pm with
      | Some (Mutation_Insert e) => append_names [] (range_names ord (Properties e))
      | Some (Mutation_Update e) => append_names [] (range_names ord (Properties e))
      | Some (Mutation_Upsert e) => append_names [] (range_names ord (Properties e))
      | _ => []
      end in
    set_PropertyMask pm {| Paths := paths |}.

(** ** [WithTransforms] *)

Definition append_transform (pm : pbMutation) (p : pbPropertyTransform) : pbMutation :=
  {| Operation := Operation pm;
     PropertyMask := PropertyMask pm;
     PropertyTransforms := PropertyTransforms pm ++ [p] |}.

(** The loop over [transforms]: the message as the loop leaves it, and
    the error it stopped on, if any. *)
Fixpoint WithTransforms_loop (pm : pbMutation) (transforms : list PropertyTransform)
    : pbMutation * option (error Key) :=
  match transforms with
  | [] => (pm, None)
  | transform :: rest =>
    match pb transform with
    | None => (pm, Some errUninitializedTransform)
    | Some p => WithTransforms_loop (append_transform pm p) rest
    end
  end.

(** [m.isDelete()] is called after [m.mut] was found non-nil, where it
    is the type assertion on [m.mut.Operation]. *)
Definition WithTransforms (ord : MapOrder) (m : Mutation)
    (transforms : list PropertyTransform) : Mutation :=
  match err m with
  | Some _ => m
  | None =>
    match mut m with
    | None => set_err m errUninitializedMutation
    | Some pm =>
      if is_Mutation_Delete (Operation pm) then set_err m errTransformOnDelete
      else
        match WithTransforms_loop pm transforms with
        | (pm', Some e) => {| key := key m; mut := Some pm'; err := Some e |}
        | (pm', None) =>
          {| key := key m;
             mut := Some (setMutationProtoPropertyMaskForTransforms ord pm');
             err := None |}
        end
    end
  end.

(** ** The constructors *)

Definition NewInsert (k : option Key) (src : Src) : Mutation :=
  if negb (valid k) then Mutation_err ErrInvalidKey
  else
    match saveEntity k src with
    | inr e => Mutation_err e
    | inl p =>
      {| key := k; mut := Some (pbMutation_of (Mutation_Insert p)); err := None |}
    end.

Definition NewUpsert (k : option Key) (src : Src) : Mutation :=
  if negb (valid k) then Mutation_err ErrInvalidKey
  else
    match saveEntity k src with
    | inr e => Mutation_err e
    | inl p =>
      {| key := k; mut := Some (pbMutation_of (Mutation_Upsert p)); err := None |}
    end.

Definition NewUpdate (k : option Key) (src : Src) : Mutation :=
  if negb (valid k) then Mutation_err ErrInvalidKey
  else if Incomplete k then Mutation_err (errIncompleteUpdate k)
  else
    match saveEntity k src with
    | inr e => Mutation_err e
    | inl p =>
      {| key := k; mut := Some (pbMutation_of (Mutation_Update p)); err := None |}
    end.

Definition NewDelete (k : option Key) : Mutation :=
  if negb (valid k) then Mutation_err ErrInvalidKey
  else if Incomplete k then Mutation_err (errIncompleteDelete k)
  else
    {| key := k;
       mut := Some (pbMutation_of (Mutation_Delete (keyToProto k)));
       err := None |}.

(** ** [mutationProtos] *)

(** The first loop. [n] is [len(muts)] of the whole batch, [i] the
    index of the head of [muts]. [merr[i] = m.err] is always in range
    here, where the list update and the slice assignment agree. *)
Fixpoint collect_errors (n : nat) (merr : option (MultiError Key)) (i : nat)
    (muts : list Mutation) : option (MultiError Key) :=
  match muts with
  | [] => merr
  | m :: rest =>
    match err m with
    | Some e =>
      let merr' :=
        match merr with
        | None => replicate n None
        | Some me => me
        end in
      collect_errors n (Some (<[i := Some e]> merr')) (S i) rest
    | None => collect_errors n merr (S i) rest
    end
  end.

(** [seen[ks]]: a missing entry reads as false. *)
Definition seen_at (seen : gmap string bool) (ks : string) : bool :=
  default false (seen !! ks).

(** The second loop. *)
Fixpoint collect_protos (seen : gmap string bool) (protos : list (option pbMutation))
    (muts : list Mutation) : result (list (option pbMutation)) :=
  match muts with
  | [] => mret protos
  | m :: rest =>
    d ← isDelete m;
    if d : bool then
      let ks := stringInternal (key m) in
      if seen_at seen ks then collect_protos seen protos rest
      else collect_protos (<[ks := true]> seen) (protos ++ [mut m]) rest
    else collect_protos seen (protos ++ [mut m]) rest
  end.

Definition mutationProtos (muts : list Mutation)
    : result (list (option pbMutation) * option (MultiError Key)) :=
  match collect_errors (length muts) None 0 muts with
  | Some merr => mret ([], Some merr)
  | None =>
    protos ← collect_protos ∅ [] muts;
    mret (protos, None)
  end.

End Model.

(** ** Mutations the public interface can build *)

Section Reachability.
Context {C : Collaborators}.

(** A sequence of [WithTransforms] calls on the same mutation, each
    with its arguments and the map order its mask loop happens to see. *)
Definition WithTransforms_calls (m : Mutation)
    (calls : list (MapOrder * list PropertyTransform)) : Mutation :=
  foldl (λ acc call, WithTransforms call.1 acc call.2) m calls.

(** Built by a constructor. *)
Inductive Constructed : Mutation → Prop :=
| Constructed_NewInsert k src : Constructed (NewInsert k src)
| Constructed_NewUpsert k src : Constructed (NewUpsert k src)
| Constructed_NewUpdate k src : Constructed (NewUpdate k src)
| Constructed_NewDelete k : Constructed (NewDelete k).

(** Built by a constructor and decorated by any number of
    [WithTransforms] calls. *)
Inductive Reachable : Mutation → Prop :=
| Reachable_Constructed m : Constructed m → Reachable m
| Reachable_WithTransforms ord m transforms :
    Reachable m → Reachable (WithTransforms ord m transforms).

(** Returned by a constructor or by [WithTransforms], whatever the
    receiver of the latter was. *)
Inductive Produced : Mutation → Prop :=
| Produced_Constructed m : Constructed m → Produced m
| Produced_WithTransforms ord m transforms :
    Produced (WithTransforms ord m transforms).

(** ** Vocabulary of the statements *)

(** The message [pm] with [ps] appended to its transforms. *)
Definition with_appended (pm : pbMutation) (ps : list pbPropertyTransform) : pbMutation :=
  {| Operation := Operation pm;
     PropertyMask := PropertyMask pm;
     PropertyTransforms := PropertyTransforms pm ++ ps |}.

(** The entity an Insert, Update or Upsert writes. *)
Definition payload (o : option Mutation_Operation) : option pbEntity :=
  match o with
  | Some (Mutation_Insert e) | Some (Mutation_Update e) | Some (Mutation_Upsert e) => Some e
  | _ => None
  end.

(** ** What the batch builder is expected to emit *)

(** [m] is a Delete: its message is there and holds a Delete. *)
Definition is_delete (m : Mutation) : bool :=
  match mut m with
  | Some pm => is_Mutation_Delete (Operation pm)
  | None => false
  end.

Definition key_string (m : Mutation) : string := stringInternal (key m).

(** Some mutation of [earlier] is a Delete with key string [ks]. *)
Definition deleted_in (earlier : list Mutation) (ks : string) : bool :=
  existsb (λ m', is_delete m' && bool_decide (key_string m' = ks)) earlier.

(** [m], at index [i] of [muts], is a Delete and some mutation before
    it is a Delete with the same key string. *)
Definition duplicate_delete (muts : list Mutation) (i : nat) (m : Mutation) : bool :=
  is_delete m && deleted_in (take i muts) (key_string m).

(** The messages of the mutations that are not duplicate deletes, in
    the order of the batch. *)
Definition expected_protos (muts : list Mutation) : list (option pbMutation) :=
  mut <$> (snd <$> filter (λ im, duplicate_delete muts im.1 im.2 = false)
                          (imap pair muts)).

(** ** Loop invariants of the batch builder *)

Definition no_error (o : option (error Key)) : bool :=
  match o with
  | None => true
  | Some _ => false
  end.

(** [merr] in the first loop, once the mutations with errors [front]
    are behind and [k] mutations are ahead: nil as long as no error was
    met, afterwards one slot per mutation of the batch. *)
Definition merr_state (front : MultiError Key) (k : nat) : option (MultiError Key) :=
  if forallb no_error front then None else Some (front ++ replicate k None).

(** [seen] in the second loop, once the mutations [earlier] are
    behind: the key strings of their Deletes. *)
Definition seen_after (earlier : list Mutation) (seen : gmap string bool) : Prop :=
  ∀ ks, seen_at seen ks = deleted_in earlier ks.

(** What the second loop appends for [rest] once [earlier] is behind. *)
Fixpoint emitted_from (earlier rest : list Mutation) : list Mutation :=
  match rest with
  | [] => []
  | m :: rest' =>
    (if is_delete m && deleted_in earlier (key_string m) then [] else [m])
    ++ emitted_from (earlier ++ [m]) rest'
  end.

(** ** Vocabulary of the further properties *)

(** The mutations of a batch that are not duplicate deletes, in the
    order of the batch: [expected_protos] lists their messages. *)
Definition kept_mutations (muts : list Mutation) : list Mutation :=
  snd <$> filter (λ im, duplicate_delete muts im.1 im.2 = false) (imap pair muts).

(** The key strings of the Deletes of a list of mutations, in order. *)
Definition delete_keys (muts : list Mutation) : list string :=
  key_string <$> filter (λ m, is_delete m = true) muts.

(** The mutations of a list that are not Deletes, in order. *)
Definition non_deletes (muts : list Mutation) : list Mutation :=
  filter (λ m, is_delete m = false) muts.

(** Two masks that differ at most by the order of their paths. *)
Definition mask_equiv (a b : option pbPropertyMask) : Prop :=
  match a, b with
  | Some x, Some y => Paths x ≡ₚ Paths y
  | None, None => True
  | _, _ => False
  end.

(** Two messages that differ at most by the order of the mask paths. *)
Definition pbMutation_equiv (a b : option pbMutation) : Prop :=
  match a, b with
  | Some x, Some y =>
    Operation x = Operation y
    ∧ PropertyTransforms x = PropertyTransforms y
    ∧ mask_equiv (PropertyMask x) (PropertyMask y)
  | None, None => True
  | _, _ => False
  end.

(** What holds of the message [pm] of a mutation [m] the public
    interface can build: the key passed the constructor's tests, a
    Delete names that key and carries neither transforms nor mask, a
    mask comes with transforms and lists the names of the payload, and
    without error transforms come with a mask. *)
Definition message_invariant (m : Mutation) (pm : pbMutation) : Prop :=
  valid (key m) = true
  ∧ (∃ o, Operation pm = Some o
       ∧ match o with
         | Mutation_Insert _ | Mutation_Upsert _ => True
         | Mutation_Update _ => Incomplete (key m) = false
         | Mutation_Delete d =>
           Incomplete (key m) = false ∧ d = keyToProto (key m)
           ∧ PropertyTransforms pm = [] ∧ PropertyMask pm = None
         end)
  ∧ (∀ mask, PropertyMask pm = Some mask →
       PropertyTransforms pm ≠ []
       ∧ ∃ e, payload (Operation pm) = Some e
           ∧ Paths mask ≡ₚ (map_to_list (Properties e)).*1)
  ∧ (err m = None → PropertyTransforms pm ≠ [] → is_Some (PropertyMask pm)).

End Reachability.

(** ** A test double for the collaborators *)

Module Fixture.

(** Modelled from the spec: the Key collaborator, whose declaration
    (key.go) is outside this file. The spec gives it three
    observations: [valid()], [incomplete()] and a canonical string. A
    key of the double is those three answers. *)
Record SpecKey : Type := {
  spec_valid : bool;
  spec_incomplete : bool;
  spec_string : string
}.

(** Modelled from the spec: the entity encoder, [encode(key, src) →
    (propertySet, error)]. A source value of the double is the
    property set it encodes to, or the text of the error the encoder
    raises on it. *)
Definition encode (k : option SpecKey) (src : gmap string Z + string)
    : gmap string Z + error SpecKey :=
  match src with
  | inl props => inl props
  | inr text => inr (errors_New text)
  end.

Definition double : Collaborators := {|
  Key := SpecKey;
  Src := gmap string Z + string;
  pbKey := string;
  pbValue := Z;
  pbEntity := gmap string Z;
  pbPropertyTransform := string;
  Properties := λ e, e;
  valid := λ k, from_option spec_valid false k;
  Incomplete := λ k, from_option spec_incomplete true k;
  stringInternal := λ k, from_option spec_string "" k;
  keyToProto := λ k, from_option spec_string "" k;
  saveEntity := encode
|}.

(** The map order that visits the keys as [map_to_list] lists them. *)
Definition in_order : MapOrder :=
  {| order_of := λ l, l; order_perm := λ l, reflexivity l |}.

(** The map order that visits them the other way round. *)
Definition reversed : MapOrder :=
  {| order_of := reverse; order_perm := reverse_Permutation |}.

Definition keyK : option (@Key double) :=
  Some {| spec_valid := true; spec_incomplete := false; spec_string := "/K,1" |}.
Definition keyL : option (@Key double) :=
  Some {| spec_valid := true; spec_incomplete := false; spec_string := "/L,1" |}.
Definition key_incomplete : option (@Key double) :=
  Some {| spec_valid := true; spec_incomplete := true; spec_string := "/K,0" |}.
Definition key_invalid_incomplete : option (@Key double) :=
  Some {| spec_valid := false; spec_incomplete := true; spec_string := "/,0" |}.

Definition entity_xy : @pbEntity double := {[ "x" := 1%Z; "y" := 2%Z ]}.
Definition src_xy : @Src double := inl entity_xy.
Definition src_empty : @Src double := inl ∅.
Definition src_bad : @Src double := inr "datastore: invalid entity type".

Definition tA : @PropertyTransform double :=
  @Build_PropertyTransform double (Some "A").
Definition tB : @PropertyTransform double :=
  @Build_PropertyTransform double (Some "B").
Definition tC : @PropertyTransform double :=
  @Build_PropertyTransform double (Some "C").
Definition tNil : @PropertyTransform double :=
  @Build_PropertyTransform double None.

End Fixture.

(** * Properties *)

(** ** Transform attachment *)

Section Attachment.
Context {C : Collaborators}.
Implicit Types (m : Mutation) (pm : pbMutation) (ord : MapOrder).
Implicit Types (transforms : list PropertyTransform).

Lemma append_names_app (paths names : list string) :
  append_names paths names = paths ++ names.
Proof.
  unfold append_names. revert paths.
  induction names as [|name names IH]; intros paths; simpl.
  - by rewrite app_nil_r.
  - by rewrite IH, <- app_assoc.
Qed.

Lemma with_appended_append pm p ps :
  with_appended (append_transform pm p) ps = with_appended pm (p :: ps).
Proof. unfold with_appended, append_transform; simpl. by rewrite <- app_assoc. Qed.

(** The loop runs to its end on initialized transforms and appends
    them all, in order. *)
Lemma WithTransforms_loop_initialized pm transforms :
  Forall (λ t, is_Some (pb t)) transforms →
  WithTransforms_loop pm transforms = (with_appended pm (omap pb transforms), None).
Proof.
  intros Hall. revert pm.
  induction Hall as [|t rest [p Hp] _ IH]; intros pm; simpl.
  - unfold with_appended. rewrite app_nil_r. by destruct pm.
  - rewrite Hp. by rewrite IH, with_appended_append.
Qed.

(** The loop stops at the first uninitialized transform, keeping what
    it appended before. *)
Lemma WithTransforms_loop_uninitialized pm before t after :
  Forall (λ t, is_Some (pb t)) before →
  pb t = None →
  WithTransforms_loop pm (before ++ t :: after)
  = (with_appended pm (omap pb before), Some errUninitializedTransform).
Proof.
  intros Hall Ht. revert pm.
  induction Hall as [|t0 rest [p Hp] _ IH]; intros pm; simpl.
  - rewrite Ht. unfold with_appended. rewrite app_nil_r. by destruct pm.
  - rewrite Hp. by rewrite IH, with_appended_append.
Qed.

(** The loop either finishes without an error or stops on the
    uninitialized-transform error. *)
Lemma WithTransforms_loop_error pm transforms pm' e :
  WithTransforms_loop pm transforms = (pm', Some e) → e = errUninitializedTransform.
Proof.
  revert pm. induction transforms as [|t rest IH]; intros pm; simpl.
  - congruence.
  - destruct (pb t); [apply IH | congruence].
Qed.

Lemma WithTransforms_loop_Operation pm transforms :
  Operation (WithTransforms_loop pm transforms).1 = Operation pm.
Proof.
  revert pm. induction transforms as [|t rest IH]; intros pm; simpl; [done|].
  destruct (pb t); [by rewrite IH | done].
Qed.

(** A successful call on a valid mutation: what it returns. *)
Lemma WithTransforms_success ord m pm transforms :
  err m = None → mut m = Some pm →
  is_Mutation_Delete (Operation pm) = false →
  Forall (λ t, is_Some (pb t)) transforms →
  WithTransforms ord m transforms
  = {| key := key m;
       mut := Some (setMutationProtoPropertyMaskForTransforms ord
                      (with_appended pm (omap pb transforms)));
       err := None |}.
Proof.
  intros He Hm Hd Hall. unfold WithTransforms.
  by rewrite He, Hm, Hd, WithTransforms_loop_initialized.
Qed.

Lemma setMask_PropertyTransforms ord pm :
  PropertyTransforms (setMutationProtoPropertyMaskForTransforms ord pm)
  = PropertyTransforms pm.
Proof.
  unfold setMutationProtoPropertyMaskForTransforms.
  by destruct (length (PropertyTransforms pm) =? 0).
Qed.

Lemma setMask_Operation ord pm :
  Operation (setMutationProtoPropertyMaskForTransforms ord pm) = Operation pm.
Proof.
  unfold setMutationProtoPropertyMaskForTransforms.
  by destruct (length (PropertyTransforms pm) =? 0).
Qed.

(** With transforms present and a payload [e], the mask lists the
    names of [e] in the order the loop met them. *)
Lemma setMask_payload ord pm e :
  PropertyTransforms pm ≠ [] →
  payload (Operation pm) = Some e →
  PropertyMask (setMutationProtoPropertyMaskForTransforms ord pm)
  = Some {| Paths := range_names ord (Properties e) |}.
Proof.
  intros Hne He. unfold setMutationProtoPropertyMaskForTransforms.
  destruct (PropertyTransforms pm) as [|p ps]; [done|]. simpl.
  destruct (Operation pm) as [[e'|e'|e'|d]|]; simpl in He; try discriminate;
    injection He as ->; by rewrite append_names_app.
Qed.

Lemma range_names_perm {V} ord (props : gmap string V) :
  range_names ord props ≡ₚ (map_to_list props).*1.
Proof. apply order_perm. Qed.

Lemma range_names_dom {V} ord (props : gmap string V) :
  list_to_set (range_names ord props) =@{gset string} dom props.
Proof.
  apply set_eq; intros name.
  rewrite elem_of_list_to_set, range_names_perm, elem_of_dom.
  rewrite list_elem_of_fmap. split.
  - intros [[name' v] [-> Hin]]. apply elem_of_map_to_list in Hin. by exists v.
  - intros [v Hv]. exists (name, v). split; [done|]. by apply elem_of_map_to_list.
Qed.

Lemma range_names_empty {V} ord (props : gmap string V) :
  props = ∅ → range_names ord props = [].
Proof.
  intros ->. apply Permutation_nil_r. symmetry.
  rewrite range_names_perm. by rewrite map_to_list_empty.
Qed.

End Attachment.

(** C1, as the spec words it, fails: a Delete built from a valid,
    complete key and then passed to [WithTransforms] is reachable and
    holds both its operation and an error. *)
Lemma C1_both_present_after_failed_call :
  let m := WithTransforms Fixture.in_order (NewDelete Fixture.keyK) [] in
  Reachable m ∧ is_Some (mut m) ∧ is_Some (err m).
Proof.
  simpl. split.
  - apply Reachable_WithTransforms, Reachable_Constructed, Constructed_NewDelete.
  - split; eexists; reflexivity.
Qed.

Lemma Constructed_state {C : Collaborators} (m : Mutation) :
  Constructed m →
  (mut m = None ∧ is_Some (err m)) ∨ (is_Some (mut m) ∧ err m = None).
Proof.
  intros [k src|k src|k src|k].
  - unfold NewInsert. destruct (valid k); simpl; [|left; eauto].
    destruct (saveEntity k src); simpl; [right|left]; eauto.
  - unfold NewUpsert. destruct (valid k); simpl; [|left; eauto].
    destruct (saveEntity k src); simpl; [right|left]; eauto.
  - unfold NewUpdate. destruct (valid k); simpl; [|left; eauto].
    destruct (Incomplete k); simpl; [left; eauto|].
    destruct (saveEntity k src); simpl; [right|left]; eauto.
  - unfold NewDelete. destruct (valid k); simpl; [|left; eauto].
    destruct (Incomplete k); simpl; [left|right]; eauto.
Qed.

(** C1 (amended): a mutation built by a constructor and decorated by
    any sequence of [WithTransforms] calls is in one of three states:
    error only (no operation, error set), valid (operation present, no
    error), or failed decoration (operation still present, and the
    error is the one [WithTransforms] sets for a Delete or for an
    uninitialized transform). It never lacks both, and as a
    constructor returns it, it is in one of the first two states. *)
Theorem C1_mutation_states {C : Collaborators} (m : Mutation) :
  Reachable m →
  ((mut m = None ∧ is_Some (err m))
   ∨ (is_Some (mut m) ∧ err m = None)
   ∨ (is_Some (mut m)
      ∧ (err m = Some errTransformOnDelete ∨ err m = Some errUninitializedTransform)))
  ∧ (Constructed m →
     (mut m = None ∧ is_Some (err m)) ∨ (is_Some (mut m) ∧ err m = None)).
Proof.
  intros Hreach. split; [|apply Constructed_state].
  induction Hreach as [m Hc|ord m transforms _ IH].
  - destruct (Constructed_state m Hc) as [?|?]; auto.
  - unfold WithTransforms.
    destruct IH as [[Hm [e He]]|[[[pm Hm] He]|[[pm Hm] He]]].
    + rewrite He. left. rewrite Hm, He. eauto.
    + rewrite He, Hm.
      destruct (is_Mutation_Delete (Operation pm)); simpl.
      * right; right. rewrite Hm. eauto.
      * destruct (WithTransforms_loop pm transforms) as [pm' [e|]] eqn:Hloop; simpl.
        -- right; right. apply WithTransforms_loop_error in Hloop as ->. eauto.
        -- right; left. eauto.
    + destruct He as [He|He]; rewrite He; right; right; rewrite Hm, He; eauto.
Qed.

Lemma C1_mutation_states_witness :
  let m := WithTransforms Fixture.reversed (NewUpsert Fixture.keyK Fixture.src_xy)
             [Fixture.tA; Fixture.tNil] in
  ((mut m = None ∧ is_Some (err m))
   ∨ (is_Some (mut m) ∧ err m = None)
   ∨ (is_Some (mut m)
      ∧ (err m = Some errTransformOnDelete ∨ err m = Some errUninitializedTransform)))
  ∧ (Constructed m →
     (mut m = None ∧ is_Some (err m)) ∨ (is_Some (mut m) ∧ err m = None)).
Proof.
  intros m. apply (C1_mutation_states m).
  apply Reachable_WithTransforms, Reachable_Constructed, Constructed_NewUpsert.
Defined.

(** C2: on an Insert, Update or Upsert without error, a
    [WithTransforms] call that succeeds returns a mutation with the
    same payload; if its transform list is not empty, its property
    mask is present and its paths are exactly the property names of the
    payload, each once; with an empty payload the mask is present and
    has no path. *)
Theorem C2_property_mask {C : Collaborators} (ord : MapOrder) (m : Mutation)
    (pm : pbMutation) (e : pbEntity) (transforms : list PropertyTransform) :
  err m = None →
  mut m = Some pm →
  payload (Operation pm) = Some e →
  err (WithTransforms ord m transforms) = None →
  ∃ pm', mut (WithTransforms ord m transforms) = Some pm'
    ∧ payload (Operation pm') = Some e
    ∧ (PropertyTransforms pm' ≠ [] →
       ∃ mask, PropertyMask pm' = Some mask
         ∧ list_to_set (Paths mask) =@{gset string} dom (Properties e)
         ∧ NoDup (Paths mask)
         ∧ (Properties e = ∅ → mask = {| Paths := [] |})).
Proof.
  intros He Hm Hpay. unfold WithTransforms. rewrite He, Hm.
  assert (is_Mutation_Delete (Operation pm) = false) as ->.
  { destruct (Operation pm) as [[| | |]|]; simpl in *; congruence. }
  pose proof (WithTransforms_loop_Operation pm transforms) as Hop.
  destruct (WithTransforms_loop pm transforms) as [pm' [e'|]]; simpl in *; [done|].
  intros _. eexists. split; [done|].
  rewrite setMask_Operation, setMask_PropertyTransforms, Hop.
  split; [done|]. intros Hne.
  rewrite (setMask_payload ord pm' e) by (by rewrite ?Hop).
  eexists. split; [done|]. simpl. split; [apply range_names_dom|]. split.
  - rewrite range_names_perm. apply NoDup_fst_map_to_list.
  - intros Hempty. by rewrite range_names_empty.
Qed.

Lemma C2_property_mask_witness :
  ∃ pm', mut (WithTransforms Fixture.reversed
                (NewInsert Fixture.keyK Fixture.src_xy) [Fixture.tA]) = Some pm'
    ∧ payload (Operation pm') = Some Fixture.entity_xy
    ∧ (PropertyTransforms pm' ≠ [] →
       ∃ mask, PropertyMask pm' = Some mask
         ∧ list_to_set (Paths mask)
           =@{gset string} dom (Properties Fixture.entity_xy)
         ∧ NoDup (Paths mask)
         ∧ (Properties Fixture.entity_xy = ∅ →
            mask = {| Paths := [] |})).
Proof.
  apply (C2_property_mask (C := Fixture.double) Fixture.reversed
           (NewInsert Fixture.keyK Fixture.src_xy)
           (pbMutation_of (Mutation_Insert Fixture.entity_xy)));
    reflexivity.
Defined.

(** C5: on a Delete without error, [WithTransforms] with any
    transforms sets the transform-on-delete error and changes nothing
    else: the key and the message, with its transforms and its mask,
    are as before. *)
Theorem C5_delete_rejects_transforms {C : Collaborators} (ord : MapOrder)
    (m : Mutation) (pm : pbMutation) (d : pbKey) (transforms : list PropertyTransform) :
  err m = None →
  mut m = Some pm →
  Operation pm = Some (Mutation_Delete d) →
  WithTransforms ord m transforms
  = {| key := key m; mut := Some pm; err := Some errTransformOnDelete |}.
Proof.
  intros He Hm Hop. unfold WithTransforms, set_err. by rewrite He, Hm, Hop.
Qed.

Lemma C5_delete_rejects_transforms_witness :
  WithTransforms Fixture.in_order (NewDelete Fixture.keyK) [Fixture.tA; Fixture.tB]
  = {| key := Fixture.keyK;
       mut := Some (pbMutation_of (Mutation_Delete (keyToProto Fixture.keyK)));
       err := Some errTransformOnDelete |}.
Proof.
  apply (C5_delete_rejects_transforms (C := Fixture.double) Fixture.in_order
           (NewDelete Fixture.keyK) _ (keyToProto Fixture.keyK));
    reflexivity.
Defined.

(** C6: once the error of a mutation is set, any sequence of
    [WithTransforms] calls returns the mutation as it was, error
    included. *)
Theorem C6_error_is_sticky {C : Collaborators} (m : Mutation)
    (calls : list (MapOrder * list PropertyTransform)) :
  is_Some (err m) →
  WithTransforms_calls m calls = m.
Proof.
  intros [e He]. unfold WithTransforms_calls.
  induction calls as [|[ord transforms] calls IH]; simpl; [done|].
  unfold WithTransforms at 2. by rewrite He.
Qed.

Lemma C6_error_is_sticky_witness :
  WithTransforms_calls (NewUpdate Fixture.key_incomplete Fixture.src_xy)
    [(Fixture.in_order, [Fixture.tA]); (Fixture.reversed, [Fixture.tNil; Fixture.tB])]
  = NewUpdate Fixture.key_incomplete Fixture.src_xy.
Proof.
  apply (C6_error_is_sticky (C := Fixture.double)). vm_compute. eexists. reflexivity.
Defined.

(** Two successful calls in a row append the transforms of the first
    call and then those of the second. *)
Lemma WithTransforms_twice {C : Collaborators} (ord1 ord2 : MapOrder) (m : Mutation)
    (pm : pbMutation) (first second : list PropertyTransform) :
  err m = None → mut m = Some pm →
  is_Mutation_Delete (Operation pm) = false →
  Forall (λ t, is_Some (pb t)) first →
  Forall (λ t, is_Some (pb t)) second →
  ∃ pm', WithTransforms ord2 (WithTransforms ord1 m first) second
         = {| key := key m; mut := Some pm'; err := None |}
    ∧ PropertyTransforms pm'
      = PropertyTransforms pm ++ omap pb first ++ omap pb second.
Proof.
  intros He Hm Hd H1 H2.
  rewrite (WithTransforms_success ord1 m pm first) by done.
  erewrite WithTransforms_success; [|done|done| |done].
  - eexists. split; [done|].
    rewrite !setMask_PropertyTransforms. simpl.
    rewrite setMask_PropertyTransforms. simpl. by rewrite <- app_assoc.
  - by rewrite setMask_Operation.
Qed.

(** C8: on a non-delete mutation without error, [WithTransforms] with
    [A, B] and then with [C], all three initialized, succeeds and
    leaves the transforms the mutation had followed by A, B, C in this
    order; on a mutation that had none, as every constructor returns
    it, the list is exactly A, B, C. *)
Theorem C8_transform_order {C : Collaborators} (ord1 ord2 : MapOrder) (m : Mutation)
    (pm : pbMutation) (tA tB tC : PropertyTransform) (a b c : pbPropertyTransform) :
  err m = None →
  mut m = Some pm →
  is_Mutation_Delete (Operation pm) = false →
  pb tA = Some a → pb tB = Some b → pb tC = Some c →
  ∃ pm', WithTransforms ord2 (WithTransforms ord1 m [tA; tB]) [tC]
         = {| key := key m; mut := Some pm'; err := None |}
    ∧ PropertyTransforms pm' = PropertyTransforms pm ++ [a; b; c]
    ∧ (PropertyTransforms pm = [] → PropertyTransforms pm' = [a; b; c]).
Proof.
  intros He Hm Hd Ha Hb Hc.
  destruct (WithTransforms_twice ord1 ord2 m pm [tA; tB] [tC]) as (pm' & Hcall & Hts);
    try done.
  { repeat constructor; eauto. }
  { repeat constructor; eauto. }
  exists pm'. split; [done|]. simpl in Hts. rewrite Ha, Hb, Hc in Hts. simpl in Hts.
  split; [done|]. intros Hnil. by rewrite Hts, Hnil.
Qed.

Lemma C8_transform_order_witness :
  ∃ pm', WithTransforms Fixture.reversed
           (WithTransforms Fixture.in_order (NewUpsert Fixture.keyK Fixture.src_xy)
              [Fixture.tA; Fixture.tB])
           [Fixture.tC]
         = {| key := Fixture.keyK; mut := Some pm'; err := None |}
    ∧ PropertyTransforms pm' = [] ++ ["A"; "B"; "C"]
    ∧ (@nil (@pbPropertyTransform Fixture.double) = [] →
       PropertyTransforms pm' = ["A"; "B"; "C"]).
Proof.
  apply (C8_transform_order (C := Fixture.double) Fixture.in_order Fixture.reversed
           (NewUpsert Fixture.keyK Fixture.src_xy)
           (pbMutation_of (Mutation_Upsert Fixture.entity_xy))
           Fixture.tA Fixture.tB Fixture.tC);
    reflexivity.
Defined.

(** C10: on a non-delete mutation without error, when the transform
    at index [i] is the first uninitialized one, [WithTransforms] sets
    the uninitialized-transform error and still leaves the transforms
    of indices [0 .. i-1] appended; the property mask stays the one
    the mutation had before the call. *)
Theorem C10_partial_append {C : Collaborators} (ord : MapOrder) (m : Mutation)
    (pm : pbMutation) (transforms : list PropertyTransform) (i : nat)
    (t : PropertyTransform) :
  err m = None →
  mut m = Some pm →
  is_Mutation_Delete (Operation pm) = false →
  transforms !! i = Some t →
  pb t = None →
  (∀ j t', j < i → transforms !! j = Some t' → is_Some (pb t')) →
  WithTransforms ord m transforms
  = {| key := key m;
       mut := Some {| Operation := Operation pm;
                      PropertyMask := PropertyMask pm;
                      PropertyTransforms :=
                        PropertyTransforms pm ++ omap pb (take i transforms) |};
       err := Some errUninitializedTransform |}.
Proof.
  intros He Hm Hd Hi Ht Hbefore. unfold WithTransforms. rewrite He, Hm, Hd.
  rewrite <- (take_drop_middle transforms i t Hi) at 1.
  rewrite WithTransforms_loop_uninitialized; [done| |done].
  apply Forall_forall. intros t' Hin.
  apply list_elem_of_lookup in Hin as [j Hj].
  pose proof (lookup_lt_Some _ _ _ Hj) as Hlt.
  rewrite length_take in Hlt.
  apply (Hbefore j); [lia|]. rewrite lookup_take_lt in Hj; [done|lia].
Qed.

Lemma C10_partial_append_witness :
  WithTransforms Fixture.in_order (NewInsert Fixture.keyK Fixture.src_xy)
    [Fixture.tA; Fixture.tB; Fixture.tNil; Fixture.tC]
  = {| key := Fixture.keyK;
       mut := Some {| Operation := Some (Mutation_Insert Fixture.entity_xy);
                      PropertyMask := None;
                      PropertyTransforms := [] ++ ["A"; "B"] |};
       err := Some errUninitializedTransform |}.
Proof.
  apply (C10_partial_append (C := Fixture.double) Fixture.in_order
           (NewInsert Fixture.keyK Fixture.src_xy)
           (pbMutation_of (Mutation_Insert Fixture.entity_xy))
           [Fixture.tA; Fixture.tB; Fixture.tNil; Fixture.tC] 2 Fixture.tNil);
    try reflexivity.
  intros [|[|j]] t' Hj Ht'; [| |lia]; injection Ht' as <-; vm_compute; eauto.
Defined.

(** ** Constructors *)

(** C7, as the spec words it, fails on a key that is invalid and
    incomplete at once: [NewUpdate] and [NewDelete] test validity
    first and return the invalid-key error, not the incomplete-key
    one. *)
Lemma C7_invalid_and_incomplete_key :
  let k := Fixture.key_invalid_incomplete in
  Incomplete k = true
  ∧ err (NewUpdate k Fixture.src_xy) ≠ Some (errIncompleteUpdate k)
  ∧ err (NewDelete k) ≠ Some (errIncompleteDelete k).
Proof. vm_compute. repeat split; discriminate. Qed.

(** C7 (amended): on an invalid key, incomplete or not, [NewUpdate]
    and [NewDelete] return a mutation that carries the invalid-key
    error and nothing else; on a valid incomplete key they return one
    that carries their incomplete-key error and nothing else. *)
Theorem C7_key_errors {C : Collaborators} (k : option Key) (src : Src) :
  (valid k = false →
     NewUpdate k src = Mutation_err ErrInvalidKey
     ∧ NewDelete k = Mutation_err ErrInvalidKey)
  ∧ (valid k = true → Incomplete k = true →
     NewUpdate k src = Mutation_err (errIncompleteUpdate k)
     ∧ NewDelete k = Mutation_err (errIncompleteDelete k)).
Proof.
  unfold NewUpdate, NewDelete. split.
  - intros ->. done.
  - intros -> ->. done.
Qed.

Lemma C7_key_errors_witness :
  (NewUpdate Fixture.key_invalid_incomplete Fixture.src_xy = Mutation_err ErrInvalidKey
   ∧ NewDelete Fixture.key_invalid_incomplete = Mutation_err ErrInvalidKey)
  ∧ (NewUpdate Fixture.key_incomplete Fixture.src_xy
     = Mutation_err (errIncompleteUpdate Fixture.key_incomplete)
     ∧ NewDelete Fixture.key_incomplete
       = Mutation_err (errIncompleteDelete Fixture.key_incomplete)).
Proof.
  split.
  - apply (proj1 (C7_key_errors (C := Fixture.double)
                    Fixture.key_invalid_incomplete Fixture.src_xy)).
    reflexivity.
  - apply (proj2 (C7_key_errors (C := Fixture.double)
                    Fixture.key_incomplete Fixture.src_xy));
      reflexivity.
Defined.

(** ** The batch builder *)

Section Batch.
Context {C : Collaborators}.
Implicit Types (m : Mutation) (muts earlier rest : list Mutation).
Implicit Types (seen : gmap string bool).

Lemma forallb_no_error_replicate (front : MultiError Key) :
  forallb no_error front = true → front = replicate (length front) None.
Proof.
  induction front as [|[e|] front IH]; simpl; [done|done|].
  intros H. by rewrite <- IH.
Qed.

Lemma forallb_no_error_snoc (front : MultiError Key) (o : option (error Key)) :
  forallb no_error (front ++ [o]) = forallb no_error front && no_error o.
Proof. rewrite forallb_app. simpl. by rewrite andb_true_r. Qed.

Lemma merr_state_skip (front : MultiError Key) (k : nat) :
  merr_state front (S k) = merr_state (front ++ [None]) k.
Proof.
  unfold merr_state. rewrite forallb_no_error_snoc. simpl. rewrite andb_true_r.
  destruct (forallb no_error front); [done|]. by rewrite <- app_assoc.
Qed.

Lemma merr_state_record (front : MultiError Key) (k : nat) (e : error Key) :
  let merr' :=
    match merr_state front (S k) with
    | None => replicate (length front + S k) None
    | Some me => me
    end in
  Some (<[length front := Some e]> merr') = merr_state (front ++ [Some e]) k.
Proof.
  simpl. unfold merr_state at 2. rewrite forallb_no_error_snoc. simpl.
  rewrite andb_false_r. f_equal.
  assert (Hins : <[length front := Some e]> (front ++ replicate (S k) None)
                 = (front ++ [Some e]) ++ replicate k None).
  { rewrite insert_app_r_alt by lia. rewrite Nat.sub_diag. simpl.
    by rewrite <- app_assoc. }
  unfold merr_state. destruct (forallb no_error front) eqn:Hall; [|done].
  rewrite replicate_add. by rewrite <- (forallb_no_error_replicate front Hall).
Qed.

(** The first loop, from any point of the batch on. *)
Lemma collect_errors_state (front : MultiError Key) rest :
  collect_errors (length front + length rest) (merr_state front (length rest))
    (length front) rest
  = merr_state (front ++ (err <$> rest)) 0.
Proof.
  revert front. induction rest as [|m rest IH]; intros front; simpl.
  - by rewrite app_nil_r.
  - destruct (err m) as [e|] eqn:He.
    + rewrite merr_state_record.
      specialize (IH (front ++ [Some e])).
      rewrite length_app in IH. simpl in IH.
      replace (length front + 1 + length rest) with (length front + S (length rest))
        in IH by lia.
      replace (length front + 1) with (S (length front)) in IH by lia.
      rewrite IH. by rewrite <- app_assoc.
    + rewrite merr_state_skip.
      specialize (IH (front ++ [None])).
      rewrite length_app in IH. simpl in IH.
      replace (length front + 1 + length rest) with (length front + S (length rest))
        in IH by lia.
      replace (length front + 1) with (S (length front)) in IH by lia.
      rewrite IH. by rewrite <- app_assoc.
Qed.

Lemma collect_errors_batch muts :
  collect_errors (length muts) None 0 muts
  = if forallb no_error (err <$> muts) then None else Some (err <$> muts).
Proof.
  pose proof (collect_errors_state [] muts) as H. simpl in H.
  unfold merr_state in H at 1. simpl in H. rewrite H.
  unfold merr_state. by rewrite app_nil_r.
Qed.

Lemma forallb_no_error_Forall muts :
  forallb no_error (err <$> muts) = true ↔ Forall (λ m, err m = None) muts.
Proof.
  induction muts as [|m muts IH]; simpl.
  - split; [constructor|done].
  - rewrite andb_true_iff, IH, Forall_cons.
    destruct (err m); simpl; intuition congruence.
Qed.

Lemma isDelete_present m pm :
  mut m = Some pm → isDelete m = Ret (is_delete m).
Proof. unfold isDelete, is_delete. by intros ->. Qed.

Lemma deleted_in_snoc earlier m ks :
  deleted_in (earlier ++ [m]) ks
  = deleted_in earlier ks || (is_delete m && bool_decide (key_string m = ks)).
Proof. unfold deleted_in. rewrite existsb_app. simpl. by rewrite orb_false_r. Qed.

Lemma seen_at_insert seen ks ks' :
  seen_at (<[ks := true]> seen) ks'
  = bool_decide (ks = ks') || seen_at seen ks'.
Proof.
  unfold seen_at. destruct (decide (ks = ks')) as [->|Hne].
  - rewrite lookup_insert_eq. by rewrite bool_decide_eq_true_2.
  - rewrite lookup_insert_ne by done. by rewrite bool_decide_eq_false_2.
Qed.

(** The second loop, from any point of the batch on. *)
Lemma collect_protos_emitted seen protos earlier rest :
  seen_after earlier seen →
  Forall (λ m, is_Some (mut m)) rest →
  collect_protos seen protos rest
  = Ret (protos ++ (mut <$> emitted_from earlier rest)).
Proof.
  intros Hseen Hall. revert seen protos earlier Hseen.
  induction Hall as [|m rest [pm Hpm] _ IH]; intros seen protos earlier Hseen; simpl.
  - by rewrite app_nil_r.
  - rewrite (isDelete_present m pm Hpm). simpl.
    fold (key_string m). rewrite (Hseen (key_string m)).
    destruct (is_delete m) eqn:Hd; simpl.
    + destruct (deleted_in earlier (key_string m)) eqn:Hdup; simpl.
      * apply IH. intros ks. rewrite deleted_in_snoc, Hd, (Hseen ks). simpl.
        case_bool_decide as Hks; [|by rewrite orb_false_r].
        subst ks. by rewrite Hdup.
      * rewrite (IH _ _ (earlier ++ [m])); [by rewrite <- app_assoc|].
        intros ks. rewrite deleted_in_snoc, Hd, seen_at_insert, (Hseen ks). simpl.
        apply orb_comm.
    + rewrite (IH _ _ (earlier ++ [m])); [by rewrite <- app_assoc|].
      intros ks. rewrite deleted_in_snoc, Hd, (Hseen ks). simpl.
      by rewrite orb_false_r.
Qed.

Lemma emitted_from_indexed earlier rest :
  emitted_from earlier rest
  = snd <$> filter (λ im, duplicate_delete (earlier ++ rest) im.1 im.2 = false)
                   (imap (λ i m, (length earlier + i, m)) rest).
Proof.
  revert earlier. induction rest as [|m rest IH]; intros earlier; simpl; [done|].
  rewrite filter_cons. simpl.
  assert (Hdup : duplicate_delete (earlier ++ m :: rest) (length earlier + 0) m
                 = is_delete m && deleted_in earlier (key_string m)).
  { unfold duplicate_delete. by rewrite Nat.add_0_r, take_app_length. }
  rewrite Hdup.
  rewrite (IH (earlier ++ [m])). rewrite <- app_assoc. simpl.
  assert (Himap : imap (λ i m0, (length (earlier ++ [m]) + i, m0)) rest
                  = imap ((λ i m0, (length earlier + i, m0)) ∘ S) rest).
  { apply imap_ext. intros i x _. simpl. rewrite length_app. simpl. f_equal. lia. }
  rewrite Himap.
  by destruct (is_delete m && deleted_in earlier (key_string m)).
Qed.

Lemma collect_protos_batch muts :
  Forall (λ m, is_Some (mut m)) muts →
  collect_protos ∅ [] muts = Ret (expected_protos muts).
Proof.
  intros Hall. rewrite (collect_protos_emitted ∅ [] [] muts); [|done|done].
  simpl. by rewrite emitted_from_indexed.
Qed.

Lemma duplicate_delete_true muts i m :
  duplicate_delete muts i m = true
  ↔ is_delete m = true
    ∧ ∃ j m', j < i ∧ muts !! j = Some m'
        ∧ is_delete m' = true ∧ key_string m' = key_string m.
Proof.
  unfold duplicate_delete, deleted_in.
  rewrite andb_true_iff, existsb_exists.
  apply and_iff_compat_l. split.
  - intros (m' & Hin & Hm'). apply andb_true_iff in Hm' as [Hd Hks].
    apply bool_decide_eq_true in Hks.
    apply list_elem_of_In, list_elem_of_lookup in Hin as [j Hj].
    apply lookup_take_Some in Hj as [Hj Hlt]. eauto 10.
  - intros (j & m' & Hlt & Hj & Hd & Hks). exists m'. split.
    + apply list_elem_of_In, list_elem_of_lookup. exists j.
      by apply lookup_take_Some.
    + rewrite Hd. simpl. by apply bool_decide_eq_true.
Qed.

(** Past a prefix of mutations that have their message, the second
    loop goes on with some state. *)
Lemma collect_protos_prefix seen protos earlier rest :
  Forall (λ m, is_Some (mut m)) earlier →
  ∃ seen' protos',
    collect_protos seen protos (earlier ++ rest) = collect_protos seen' protos' rest.
Proof.
  intros Hall. revert seen protos.
  induction Hall as [|m earlier [pm Hpm] _ IH]; intros seen protos; simpl; [eauto|].
  rewrite (isDelete_present m pm Hpm). simpl.
  destruct (is_delete m); [destruct (seen_at seen _)|]; apply IH.
Qed.

Lemma Produced_error_or_operation m :
  Produced m → is_Some (err m) ∨ is_Some (mut m).
Proof.
  intros [m' Hc|ord m' transforms].
  - destruct (Constructed_state m' Hc) as [[_ ?]|[? _]]; auto.
  - unfold WithTransforms.
    destruct (err m') as [e|] eqn:He; [left; rewrite He; eauto|].
    destruct (mut m') as [pm|] eqn:Hm; [|left; simpl; eauto].
    destruct (is_Mutation_Delete (Operation pm)); [left; simpl; eauto|].
    destruct (WithTransforms_loop pm transforms) as [pm' [e|]]; simpl; eauto.
Qed.

Lemma Reachable_Produced m : Reachable m → Produced m.
Proof. intros [m' Hc|ord m' transforms _]; by constructor. Qed.

End Batch.

(** C3: for a batch of mutations without error, each with its
    message, the batch builder returns, with no error, the messages of
    the batch in input order, leaving out exactly the duplicate
    deletes: the Deletes preceded in the batch by a Delete with the
    same key string. A mutation that is not a Delete is never left
    out. *)
Theorem C3_batch_dedups_deletes {C : Collaborators} (muts : list Mutation) :
  Forall (λ m, err m = None ∧ is_Some (mut m)) muts →
  mutationProtos muts = Ret (expected_protos muts, None)
  ∧ (∀ i m, muts !! i = Some m →
       (duplicate_delete muts i m = true
        ↔ is_delete m = true
          ∧ ∃ j m', j < i ∧ muts !! j = Some m'
              ∧ is_delete m' = true ∧ key_string m' = key_string m))
  ∧ (∀ i m, muts !! i = Some m → is_delete m = false →
       duplicate_delete muts i m = false).
Proof.
  intros Hall. split; [|split].
  - unfold mutationProtos. rewrite collect_errors_batch.
    assert (forallb no_error (err <$> muts) = true) as ->.
    { apply forallb_no_error_Forall. eapply Forall_impl; [done|]. by intros m [? _]. }
    rewrite collect_protos_batch; [done|].
    eapply Forall_impl; [done|]. by intros m [_ ?].
  - intros i m _. apply duplicate_delete_true.
  - intros i m _ Hd. unfold duplicate_delete. by rewrite Hd.
Qed.

Lemma C3_batch_dedups_deletes_witness :
  mutationProtos [NewDelete Fixture.keyK; NewUpsert Fixture.keyK Fixture.src_xy;
                  NewDelete Fixture.keyL; NewDelete Fixture.keyK]
  = Ret ([mut (NewDelete Fixture.keyK); mut (NewUpsert Fixture.keyK Fixture.src_xy);
          mut (NewDelete Fixture.keyL)], None).
Proof.
  apply (C3_batch_dedups_deletes (C := Fixture.double)
           [NewDelete Fixture.keyK; NewUpsert Fixture.keyK Fixture.src_xy;
            NewDelete Fixture.keyL; NewDelete Fixture.keyK]).
  repeat (constructor; [split; [reflexivity|eexists; reflexivity]|]).
  constructor.
Defined.

(** C4: for a batch in which at least one mutation carries an error,
    the batch builder returns no message and an aggregate error with
    one slot per mutation of the batch: at every index, the error of
    the mutation at that index, nil when it has none. *)
Theorem C4_positional_errors {C : Collaborators} (muts : list Mutation) :
  Exists (λ m, is_Some (err m)) muts →
  ∃ merr, mutationProtos muts = Ret ([], Some merr)
    ∧ length merr = length muts
    ∧ ∀ i m, muts !! i = Some m → merr !! i = Some (err m).
Proof.
  intros Hex. exists (err <$> muts). split; [|split].
  - unfold mutationProtos. rewrite collect_errors_batch.
    destruct (forallb no_error (err <$> muts)) eqn:Hall; [|done].
    apply forallb_no_error_Forall in Hall.
    apply Exists_exists in Hex as (m & Hin & [e He]).
    rewrite Forall_forall in Hall. specialize (Hall m Hin). congruence.
  - apply length_fmap.
  - intros i m Hi. by rewrite list_lookup_fmap, Hi.
Qed.

Lemma C4_positional_errors_witness :
  ∃ merr,
    mutationProtos [NewDelete Fixture.keyK; NewUpsert Fixture.keyK Fixture.src_bad;
                    NewInsert Fixture.keyL Fixture.src_xy;
                    NewDelete Fixture.key_incomplete]
    = Ret ([], Some merr)
    ∧ length merr = 4
    ∧ ∀ i m,
        [NewDelete Fixture.keyK; NewUpsert Fixture.keyK Fixture.src_bad;
         NewInsert Fixture.keyL Fixture.src_xy;
         NewDelete Fixture.key_incomplete] !! i = Some m →
        merr !! i = Some (err m).
Proof.
  apply (C4_positional_errors (C := Fixture.double)
           [NewDelete Fixture.keyK; NewUpsert Fixture.keyK Fixture.src_bad;
            NewInsert Fixture.keyL Fixture.src_xy;
            NewDelete Fixture.key_incomplete]).
  apply Exists_cons_tl, Exists_cons_hd. vm_compute. eauto.
Defined.

(** C9: a mutation returned by a constructor or by [WithTransforms]
    has an error or a message, and on a batch of such mutations the
    batch builder returns; [isDelete] faults on the zero-value
    mutation, and so does the batch builder on a batch without error
    in which the zero-value mutation follows mutations that have
    their message. *)
Theorem C9_builder_total_on_produced {C : Collaborators} :
  (∀ m, Produced m → is_Some (err m) ∨ is_Some (mut m))
  ∧ (∀ muts, Forall Produced muts → ∃ out, mutationProtos muts = Ret out)
  ∧ isDelete zero_Mutation = Panic
  ∧ (∀ before after,
       Forall (λ m, err m = None ∧ is_Some (mut m)) before →
       Forall (λ m, err m = None) after →
       mutationProtos (before ++ zero_Mutation :: after) = Panic).
Proof.
  split; [apply @Produced_error_or_operation|]. split; [|split; [done|]].
  - intros muts Hall. unfold mutationProtos. rewrite collect_errors_batch.
    destruct (forallb no_error (err <$> muts)) eqn:Hnone; [|eauto].
    rewrite collect_protos_batch; [eauto|].
    apply forallb_no_error_Forall in Hnone.
    rewrite Forall_forall in *. intros m Hin.
    destruct (Produced_error_or_operation m (Hall m Hin)) as [[e He]|?]; [|done].
    specialize (Hnone m Hin). simpl in Hnone. congruence.
  - intros before after Hbefore Hafter. unfold mutationProtos.
    rewrite collect_errors_batch.
    assert (forallb no_error (err <$> before ++ zero_Mutation :: after) = true) as ->.
    { apply forallb_no_error_Forall, Forall_app. split.
      - eapply Forall_impl; [done|]. by intros m [? _].
      - by constructor. }
    destruct (collect_protos_prefix ∅ [] before (zero_Mutation :: after))
      as (seen' & protos' & ->).
    + eapply Forall_impl; [done|]. by intros m [_ ?].
    + done.
Qed.

Lemma C9_builder_total_on_produced_witness :
  (∃ out, mutationProtos
            [NewDelete Fixture.keyK;
             WithTransforms Fixture.in_order zero_Mutation [Fixture.tA];
             NewUpdate Fixture.key_incomplete Fixture.src_xy] = Ret out)
  ∧ mutationProtos
      ([NewDelete Fixture.keyK] ++ zero_Mutation :: [NewDelete Fixture.keyK]) = Panic.
Proof.
  split.
  - apply (proj1 (proj2 (C9_builder_total_on_produced (C := Fixture.double)))).
    constructor; [|constructor; [|constructor; [|constructor]]].
    + apply Produced_Constructed, Constructed_NewDelete.
    + apply Produced_WithTransforms.
    + apply Produced_Constructed, Constructed_NewUpdate.
  - apply (proj2 (proj2 (proj2 (C9_builder_total_on_produced (C := Fixture.double))))).
    + repeat (constructor; [split; [reflexivity|eexists; reflexivity]|]).
      constructor.
    + repeat constructor.
Defined.

(** * Further properties *)

(** ** Constructors *)

(** X1: [NewInsert] and [NewUpsert] test the key's validity and
    nothing else of the key: on an invalid key they return the
    invalid-key error whatever the source is; on a valid key, complete
    or not, they return what the encoder decides: its error, carried
    as it is with no key and no message, or the key with a fresh
    Insert (Upsert) message of the encoded entity. *)
Theorem X1_insert_upsert_outcome {C : Collaborators} (k : option Key) (src : Src) :
  (valid k = false →
     NewInsert k src = Mutation_err ErrInvalidKey
     ∧ NewUpsert k src = Mutation_err ErrInvalidKey)
  ∧ (∀ e, valid k = true → saveEntity k src = inr e →
       NewInsert k src = Mutation_err e ∧ NewUpsert k src = Mutation_err e)
  ∧ (∀ p, valid k = true → saveEntity k src = inl p →
       NewInsert k src
       = {| key := k;
            mut := Some {| Operation := Some (Mutation_Insert p);
                           PropertyMask := None; PropertyTransforms := [] |};
            err := None |}
       ∧ NewUpsert k src
         = {| key := k;
              mut := Some {| Operation := Some (Mutation_Upsert p);
                             PropertyMask := None; PropertyTransforms := [] |};
              err := None |})
  ∧ (err (NewInsert k src) = None ↔ valid k = true ∧ ∃ p, saveEntity k src = inl p)
  ∧ (err (NewUpsert k src) = None ↔ valid k = true ∧ ∃ p, saveEntity k src = inl p).
Proof.
  unfold NewInsert, NewUpsert.
  split; [by intros ->|]. split; [by intros e -> ->|]. split; [by intros p -> ->|].
  destruct (valid k); simpl; [|split; split; (done || by intros [? _])].
  destruct (saveEntity k src) as [p|e]; simpl.
  - split; split; eauto.
  - split; split; (done || by intros [_ [? ?]]).
Qed.

Lemma X1_insert_upsert_outcome_witness :
  (NewInsert Fixture.key_incomplete Fixture.src_bad
   = Mutation_err (errors_New "datastore: invalid entity type")
   ∧ NewUpsert Fixture.key_incomplete Fixture.src_bad
     = Mutation_err (errors_New "datastore: invalid entity type"))
  ∧ err (NewInsert Fixture.key_incomplete Fixture.src_xy) = None.
Proof.
  split.
  - apply (proj1 (proj2 (X1_insert_upsert_outcome (C := Fixture.double)
                           Fixture.key_incomplete Fixture.src_bad)));
      reflexivity.
  - apply (proj1 (proj2 (proj2 (proj2 (X1_insert_upsert_outcome (C := Fixture.double)
                                         Fixture.key_incomplete Fixture.src_xy))))).
    split; [reflexivity|]. eexists. reflexivity.
Defined.

(** X2: [NewUpdate] returns a mutation without error exactly when the
    key is valid and complete and the encoder succeeds, and [NewDelete]
    exactly when the key is valid and complete; the mutation then
    holds the key and a fresh Update message of the encoded entity,
    or a fresh Delete message of the key's wire form. On a valid
    complete key an encoder error is carried as it is. *)
Theorem X2_update_delete_outcome {C : Collaborators} (k : option Key) (src : Src) :
  (err (NewUpdate k src) = None
   ↔ valid k = true ∧ Incomplete k = false ∧ ∃ p, saveEntity k src = inl p)
  ∧ (err (NewDelete k) = None ↔ valid k = true ∧ Incomplete k = false)
  ∧ (valid k = true → Incomplete k = false →
       NewDelete k
       = {| key := k;
            mut := Some {| Operation := Some (Mutation_Delete (keyToProto k));
                           PropertyMask := None; PropertyTransforms := [] |};
            err := None |}
       ∧ (∀ p, saveEntity k src = inl p →
            NewUpdate k src
            = {| key := k;
                 mut := Some {| Operation := Some (Mutation_Update p);
                                PropertyMask := None; PropertyTransforms := [] |};
                 err := None |})
       ∧ (∀ e, saveEntity k src = inr e → NewUpdate k src = Mutation_err e)).
Proof.
  unfold NewUpdate, NewDelete. split; [|split].
  - destruct (valid k); simpl; [|split; [done|by intros [? _]]].
    destruct (Incomplete k); simpl; [split; [done|by intros (_ & ? & _)]|].
    destruct (saveEntity k src); simpl;
      [split; eauto|split; [done|by intros (_ & _ & ? & ?)]].
  - destruct (valid k); simpl; [|split; [done|by intros [? _]]].
    destruct (Incomplete k); simpl; [split; [done|by intros [_ ?]]|split; eauto].
  - intros -> ->. simpl. split; [done|]. split; by intros ? ->.
Qed.

Lemma X2_update_delete_outcome_witness :
  NewDelete Fixture.keyK
  = {| key := Fixture.keyK;
       mut := Some {| Operation := Some (Mutation_Delete (keyToProto Fixture.keyK));
                      PropertyMask := None; PropertyTransforms := [] |};
       err := None |}.
Proof.
  apply (proj2 (proj2 (X2_update_delete_outcome (C := Fixture.double)
                         Fixture.keyK Fixture.src_xy)));
    reflexivity.
Defined.

(** ** Transform attachment, further *)

Section Decoration.
Context {C : Collaborators}.
Implicit Types (m : Mutation) (pm : pbMutation) (ord : MapOrder).
Implicit Types (transforms : list PropertyTransform).

Lemma with_appended_nil pm : with_appended pm [] = pm.
Proof. unfold with_appended. rewrite app_nil_r. by destruct pm. Qed.

(** The loop only appends. *)
Lemma WithTransforms_loop_appended pm transforms :
  ∃ ps, (WithTransforms_loop pm transforms).1 = with_appended pm ps.
Proof.
  revert pm. induction transforms as [|t rest IH]; intros pm; simpl.
  - exists []. by rewrite with_appended_nil.
  - destruct (pb t) as [p|]; [|exists []; by rewrite with_appended_nil].
    destruct (IH (append_transform pm p)) as [ps ->].
    exists (p :: ps). apply with_appended_append.
Qed.

Lemma WithTransforms_loop_app pm first second :
  WithTransforms_loop pm (first ++ second)
  = match WithTransforms_loop pm first with
    | (pm', None) => WithTransforms_loop pm' second
    | stopped => stopped
    end.
Proof.
  revert pm. induction first as [|t rest IH]; intros pm; simpl; [done|].
  destruct (pb t); [apply IH|done].
Qed.

Lemma WithTransforms_loop_finishes pm transforms :
  (WithTransforms_loop pm transforms).2 = None
  ↔ Forall (λ t, is_Some (pb t)) transforms.
Proof.
  revert pm. induction transforms as [|t rest IH]; intros pm; simpl.
  - split; [constructor|done].
  - destruct (pb t) as [p|] eqn:Hp; simpl.
    + rewrite IH. split; [intros ?; constructor; eauto|by inversion 1].
    + split; [done|]. inversion 1 as [|? ? [? Hsome]]. congruence.
Qed.

(** The mask the function sets depends on the operation alone. *)
Lemma setMask_appended ord1 ord2 pm ps :
  setMutationProtoPropertyMaskForTransforms ord2
    (with_appended (setMutationProtoPropertyMaskForTransforms ord1 pm) ps)
  = setMutationProtoPropertyMaskForTransforms ord2 (with_appended pm ps).
Proof.
  unfold setMutationProtoPropertyMaskForTransforms at 2.
  destruct (PropertyTransforms pm) as [|p0 ps0] eqn:Hts; simpl; [done|].
  unfold setMutationProtoPropertyMaskForTransforms, with_appended, set_PropertyMask.
  simpl. by rewrite Hts.
Qed.

Lemma mask_equiv_refl (a : option pbPropertyMask) : mask_equiv a a.
Proof. destruct a; simpl; [reflexivity|exact I]. Qed.

Lemma setMask_orders ord1 ord2 pm :
  pbMutation_equiv (Some (setMutationProtoPropertyMaskForTransforms ord1 pm))
                   (Some (setMutationProtoPropertyMaskForTransforms ord2 pm)).
Proof.
  unfold setMutationProtoPropertyMaskForTransforms.
  destruct (length (PropertyTransforms pm) =? 0); simpl.
  - auto using mask_equiv_refl.
  - split; [done|]. split; [done|].
    destruct (Operation pm) as [[e|e|e|d]|]; simpl; try done;
      rewrite !append_names_app; simpl;
      by rewrite !range_names_perm.
Qed.

(** The invariant of the messages of reachable mutations. *)
Lemma Constructed_message_invariant m pm :
  Constructed m → mut m = Some pm → message_invariant m pm.
Proof.
  unfold message_invariant.
  intros [k src|k src|k src|k]; unfold NewInsert, NewUpsert, NewUpdate, NewDelete;
    (destruct (valid k) eqn:Hv; simpl; [|done]);
    try (destruct (Incomplete k) eqn:Hi; simpl; [done|]);
    try (destruct (saveEntity k src); simpl; [|done]);
    intros [= <-]; simpl;
    (split; [done|]);
    (split; [eexists; split; [reflexivity|done]|]);
    (split; [done|]); by intros _ ?.
Qed.

Lemma prefix_not_nil {A} (l k : list A) : l `prefix_of` k → l ≠ [] → k ≠ [].
Proof. intros [k' ->] Hne. by destruct l. Qed.

Lemma WithTransforms_message_invariant ord m transforms :
  (∀ pm, mut m = Some pm → message_invariant m pm) →
  ∀ pm', mut (WithTransforms ord m transforms) = Some pm' →
         message_invariant (WithTransforms ord m transforms) pm'.
Proof.
  intros IH pm'. unfold WithTransforms.
  destruct (err m) as [e|] eqn:He; [by intros; apply IH|].
  destruct (mut m) as [pm|] eqn:Hm; [|by simpl; rewrite Hm].
  specialize (IH pm eq_refl).
  destruct IH as (Hvalid & (o & Hop & Hkind) & Hmask & Hpresent).
  destruct (is_Mutation_Delete (Operation pm)) eqn:Hd.
  { simpl. rewrite Hm. intros [= <-]. unfold message_invariant. simpl.
    split; [done|]. split; [eauto|]. done. }
  assert (Hpay : ∃ e, payload (Operation pm) = Some e).
  { rewrite Hop in *. destruct o; simpl in *; eauto; done. }
  destruct Hpay as [e Hpay].
  pose proof (WithTransforms_loop_appended pm transforms) as [ps Hps].
  destruct (WithTransforms_loop pm transforms) as [pm1 [e1|]] eqn:Hloop;
    simpl in Hps; subst pm1; simpl; intros [= <-]; unfold message_invariant; simpl.
  - split; [done|]. split.
    { exists o. split; [done|]. rewrite Hop in Hd. by destruct o. }
    split; [|done]. intros mask Hm'. destruct (Hmask mask Hm') as [Hne Hrest].
    split; [|done]. by destruct (PropertyTransforms pm).
  - rewrite setMask_Operation, setMask_PropertyTransforms. simpl.
    split; [done|]. split.
    { exists o. split; [done|]. rewrite Hop in Hd. by destruct o. }
    destruct (decide (PropertyTransforms pm ++ ps = [])) as [Hnil|Hne].
    + unfold setMutationProtoPropertyMaskForTransforms. simpl. rewrite Hnil. simpl.
      split; [|done]. intros mask Hm'. destruct (Hmask mask Hm') as [Hne _].
      apply app_eq_nil in Hnil as [? _]. done.
    + rewrite (setMask_payload ord _ e) by done.
      split; [|eauto]. intros mask [= <-]. split; [done|].
      exists e. split; [done|]. apply range_names_perm.
Qed.

Lemma Reachable_message_invariant m pm :
  Reachable m → mut m = Some pm → message_invariant m pm.
Proof.
  intros Hreach. revert pm.
  induction Hreach as [m Hc|ord m transforms _ IH]; intros pm.
  - by apply Constructed_message_invariant.
  - by apply WithTransforms_message_invariant.
Qed.

End Decoration.

(** X3: a mutation that a constructor returns with an error holds
    nothing but the error: no key and no message. *)
Theorem X3_constructor_error_only {C : Collaborators} (m : Mutation) (e : error Key) :
  Constructed m → err m = Some e → m = Mutation_err e.
Proof.
  intros [k src|k src|k src|k]; unfold NewInsert, NewUpsert, NewUpdate, NewDelete;
    (destruct (valid k); simpl; [|by intros [= <-]]);
    try (destruct (Incomplete k); simpl; [by intros [= <-]|]);
    try (destruct (saveEntity k src); simpl; [|by intros [= <-]]);
    done.
Qed.

Lemma X3_constructor_error_only_witness :
  NewInsert Fixture.keyK Fixture.src_bad
  = Mutation_err (errors_New "datastore: invalid entity type").
Proof.
  apply (X3_constructor_error_only (C := Fixture.double)).
  - apply Constructed_NewInsert.
  - reflexivity.
Defined.

(** X4: a reachable mutation that has a message has an operation in
    it and a key that passed the validity test; if the operation is an
    Update or a Delete the key is complete, and a Delete carries the
    wire form of the mutation's own key, the one the batch builder
    compares. *)
Theorem X4_reachable_key {C : Collaborators} (m : Mutation) (pm : pbMutation) :
  Reachable m → mut m = Some pm →
  valid (key m) = true
  ∧ is_Some (Operation pm)
  ∧ (∀ e, Operation pm = Some (Mutation_Update e) → Incomplete (key m) = false)
  ∧ (∀ d, Operation pm = Some (Mutation_Delete d) →
       Incomplete (key m) = false ∧ d = keyToProto (key m)).
Proof.
  intros Hreach Hm.
  destruct (Reachable_message_invariant m pm Hreach Hm)
    as (Hvalid & (o & Hop & Hkind) & _ & _).
  split; [done|]. split; [by rewrite Hop|]. rewrite Hop. split.
  - by intros e [= ->].
  - intros d [= ->]. by destruct Hkind as (? & ? & _).
Qed.

Lemma X4_reachable_key_witness :
  valid Fixture.keyK = true
  ∧ is_Some (Some (Mutation_Delete (keyToProto Fixture.keyK)))
  ∧ (∀ e, Some (Mutation_Delete (keyToProto Fixture.keyK)) = Some (Mutation_Update e) →
       Incomplete Fixture.keyK = false)
  ∧ (∀ d, Some (Mutation_Delete (keyToProto Fixture.keyK)) = Some (Mutation_Delete d) →
       Incomplete Fixture.keyK = false ∧ d = keyToProto Fixture.keyK).
Proof.
  apply (X4_reachable_key (C := Fixture.double)
           (WithTransforms Fixture.in_order (NewDelete Fixture.keyK) [Fixture.tA])
           (pbMutation_of (Mutation_Delete (keyToProto Fixture.keyK)))).
  - apply Reachable_WithTransforms, Reachable_Constructed, Constructed_NewDelete.
  - reflexivity.
Defined.

(** X5: a reachable Delete never carries a transform or a property
    mask, whatever [WithTransforms] calls were made on it. *)
Theorem X5_delete_carries_no_transform {C : Collaborators} (m : Mutation)
    (pm : pbMutation) :
  Reachable m → mut m = Some pm →
  is_Mutation_Delete (Operation pm) = true →
  PropertyTransforms pm = [] ∧ PropertyMask pm = None.
Proof.
  intros Hreach Hm Hd.
  destruct (Reachable_message_invariant m pm Hreach Hm)
    as (_ & (o & Hop & Hkind) & _ & _).
  rewrite Hop in Hd. destruct o; try done. by destruct Hkind as (_ & _ & ? & ?).
Qed.

Lemma X5_delete_carries_no_transform_witness :
  PropertyTransforms (pbMutation_of (Mutation_Delete (keyToProto Fixture.keyL))) = []
  ∧ PropertyMask (pbMutation_of (Mutation_Delete (keyToProto Fixture.keyL))) = None.
Proof.
  apply (X5_delete_carries_no_transform (C := Fixture.double)
           (WithTransforms Fixture.reversed (NewDelete Fixture.keyL)
              [Fixture.tA; Fixture.tB])).
  - apply Reachable_WithTransforms, Reachable_Constructed, Constructed_NewDelete.
  - reflexivity.
  - reflexivity.
Defined.

(** X6: in a reachable mutation, with or without error, a property
    mask that is present comes with at least one transform and lists
    exactly the property names of the payload of the mutation's own
    Insert, Update or Upsert, each once. *)
Theorem X6_mask_is_payload_names {C : Collaborators} (m : Mutation)
    (pm : pbMutation) (mask : pbPropertyMask) :
  Reachable m → mut m = Some pm → PropertyMask pm = Some mask →
  PropertyTransforms pm ≠ []
  ∧ ∃ e, payload (Operation pm) = Some e
      ∧ list_to_set (Paths mask) =@{gset string} dom (Properties e)
      ∧ NoDup (Paths mask).
Proof.
  intros Hreach Hm Hmask.
  destruct (Reachable_message_invariant m pm Hreach Hm) as (_ & _ & Hinv & _).
  destruct (Hinv mask Hmask) as (Hne & e & Hpay & Hperm).
  split; [done|]. exists e. split; [done|]. split.
  - apply set_eq; intros name.
    rewrite elem_of_list_to_set, Hperm, elem_of_dom, list_elem_of_fmap. split.
    + intros [[name' v] [-> Hin]]. apply elem_of_map_to_list in Hin. by exists v.
    + intros [v Hv]. exists (name, v). split; [done|]. by apply elem_of_map_to_list.
  - rewrite Hperm. apply NoDup_fst_map_to_list.
Qed.

Lemma X6_mask_is_payload_names_witness :
  PropertyTransforms
    (Build_pbMutation (Some (Mutation_Update Fixture.entity_xy))
       (Some {| Paths := ["x"; "y"] |}) ["A"; "B"]) ≠ []
  ∧ ∃ e, payload (Some (Mutation_Update Fixture.entity_xy)) = Some e
      ∧ list_to_set ["x"; "y"] =@{gset string} dom (Properties e)
      ∧ NoDup ["x"; "y"].
Proof.
  apply (X6_mask_is_payload_names (C := Fixture.double)
           (WithTransforms Fixture.in_order
              (WithTransforms Fixture.reversed
                 (NewUpdate Fixture.keyK Fixture.src_xy) [Fixture.tA])
              [Fixture.tB; Fixture.tNil])
           (Build_pbMutation (Some (Mutation_Update Fixture.entity_xy))
              (Some {| Paths := ["x"; "y"] |}) ["A"; "B"])
           {| Paths := ["x"; "y"] |}).
  - do 2 apply Reachable_WithTransforms.
    apply Reachable_Constructed, Constructed_NewUpdate.
  - reflexivity.
  - reflexivity.
Defined.

(** X7: in a reachable mutation without error, the property mask is
    present exactly when at least one transform is attached. *)
Theorem X7_mask_iff_transforms {C : Collaborators} (m : Mutation) (pm : pbMutation) :
  Reachable m → err m = None → mut m = Some pm →
  (is_Some (PropertyMask pm) ↔ PropertyTransforms pm ≠ []).
Proof.
  intros Hreach He Hm.
  destruct (Reachable_message_invariant m pm Hreach Hm) as (_ & _ & Hinv & Hpresent).
  split; [|auto]. intros [mask Hmask]. by destruct (Hinv mask Hmask).
Qed.

Lemma X7_mask_iff_transforms_witness :
  is_Some (PropertyMask (pbMutation_of (Mutation_Insert Fixture.entity_xy)))
  ↔ PropertyTransforms (pbMutation_of (Mutation_Insert Fixture.entity_xy)) ≠ [].
Proof.
  apply (X7_mask_iff_transforms (C := Fixture.double)
           (WithTransforms Fixture.in_order
              (NewInsert Fixture.keyK Fixture.src_xy) [])).
  - apply Reachable_WithTransforms, Reachable_Constructed, Constructed_NewInsert.
  - reflexivity.
  - reflexivity.
Defined.

Lemma pbMutation_equiv_refl {C : Collaborators} (a : option pbMutation) :
  pbMutation_equiv a a.
Proof. destruct a; simpl; auto using mask_equiv_refl. Qed.

(** X8: whatever the receiver and the transforms, [WithTransforms]
    keeps the key, keeps a missing message missing, and in a message
    that is there keeps the operation and every transform already
    attached, in place at the front of the list. *)
Theorem X8_WithTransforms_frame {C : Collaborators} (ord : MapOrder) (m : Mutation)
    (transforms : list PropertyTransform) :
  key (WithTransforms ord m transforms) = key m
  ∧ (mut m = None → mut (WithTransforms ord m transforms) = None)
  ∧ (∀ pm, mut m = Some pm →
       ∃ pm', mut (WithTransforms ord m transforms) = Some pm'
         ∧ Operation pm' = Operation pm
         ∧ PropertyTransforms pm `prefix_of` PropertyTransforms pm').
Proof.
  unfold WithTransforms.
  destruct (err m) as [e|] eqn:He.
  { split; [done|]. split; [done|]. intros pm ->. eauto. }
  destruct (mut m) as [pm|] eqn:Hm; simpl.
  2:{ rewrite Hm. split; [done|]. split; [done|]. by intros. }
  destruct (is_Mutation_Delete (Operation pm)); simpl.
  { rewrite Hm. split; [done|]. split; [done|]. intros ? [= <-]. eauto. }
  pose proof (WithTransforms_loop_appended pm transforms) as [ps Hps].
  destruct (WithTransforms_loop pm transforms) as [pm1 [e1|]];
    simpl in *; subst pm1; (split; [done|]); (split; [done|]);
    intros ? [= <-]; eexists; (split; [done|]).
  - split; [done|]. by exists ps.
  - rewrite setMask_Operation, setMask_PropertyTransforms.
    split; [done|]. by exists ps.
Qed.

Lemma X8_WithTransforms_frame_witness :
  ∃ pm', mut (WithTransforms Fixture.reversed (NewUpsert Fixture.keyK Fixture.src_xy)
                [Fixture.tA; Fixture.tNil; Fixture.tB]) = Some pm'
    ∧ Operation pm' = Some (Mutation_Upsert Fixture.entity_xy)
    ∧ [] `prefix_of` PropertyTransforms pm'.
Proof.
  apply (proj2 (proj2 (X8_WithTransforms_frame (C := Fixture.double) Fixture.reversed
                         (NewUpsert Fixture.keyK Fixture.src_xy)
                         [Fixture.tA; Fixture.tNil; Fixture.tB]))
           (pbMutation_of (Mutation_Upsert Fixture.entity_xy))).
  reflexivity.
Defined.

(** X9: on a mutation without error, [WithTransforms] returns without
    error exactly when the mutation has a message, the message is not
    a Delete and every transform of the call is initialized. Otherwise
    the error is decided in this order: the uninitialized-mutation
    error when the message is missing, the transform-on-delete error
    when it is a Delete, whatever the transforms are, and the
    uninitialized-transform error in the remaining case. *)
Theorem X9_WithTransforms_errors {C : Collaborators} (ord : MapOrder) (m : Mutation)
    (transforms : list PropertyTransform) :
  err m = None →
  (err (WithTransforms ord m transforms) = None
   ↔ ∃ pm, mut m = Some pm
       ∧ is_Mutation_Delete (Operation pm) = false
       ∧ Forall (λ t, is_Some (pb t)) transforms)
  ∧ (mut m = None →
       err (WithTransforms ord m transforms) = Some errUninitializedMutation)
  ∧ (∀ pm, mut m = Some pm → is_Mutation_Delete (Operation pm) = true →
       err (WithTransforms ord m transforms) = Some errTransformOnDelete)
  ∧ (∀ pm, mut m = Some pm → is_Mutation_Delete (Operation pm) = false →
       ¬ Forall (λ t, is_Some (pb t)) transforms →
       err (WithTransforms ord m transforms) = Some errUninitializedTransform).
Proof.
  intros He. unfold WithTransforms. rewrite He.
  destruct (mut m) as [pm|] eqn:Hm; simpl.
  2:{ split; [split; [done|by intros (? & ? & _)]|]. split; [done|]. by split. }
  destruct (is_Mutation_Delete (Operation pm)) eqn:Hd; simpl.
  { split; [split; [done|]|].
    - intros (? & [= <-] & ? & _). congruence.
    - split; [done|]. split; [done|]. intros ? [= <-]. congruence. }
  pose proof (WithTransforms_loop_finishes pm transforms) as Hfin.
  destruct (WithTransforms_loop pm transforms) as [pm1 [e1|]] eqn:Hloop; simpl in *.
  - apply WithTransforms_loop_error in Hloop as ->.
    split; [split; [done|]|].
    + intros (? & _ & _ & Hall). apply Hfin in Hall. done.
    + split; [done|]. split; [|done]. intros ? [= <-]. congruence.
  - split; [split; [|done]|].
    + intros _. exists pm. split; [done|]. split; [done|]. by apply Hfin.
    + split; [done|]. split.
      * intros ? [= <-]. congruence.
      * intros ? _ _ Hnot. destruct Hnot. by apply Hfin.
Qed.

Lemma X9_WithTransforms_errors_witness :
  err (WithTransforms Fixture.in_order zero_Mutation [Fixture.tA])
  = Some errUninitializedMutation.
Proof.
  apply (X9_WithTransforms_errors (C := Fixture.double)); reflexivity.
Defined.

(** X10: two calls in a row amount to one call with the two
    transform lists put end to end, when the transforms of the second
    call are all initialized: the result is the same mutation, mask
    included (computed under the order of the last call). *)
Theorem X10_WithTransforms_composes {C : Collaborators} (ord1 ord2 : MapOrder)
    (m : Mutation) (first second : list PropertyTransform) :
  Forall (λ t, is_Some (pb t)) second →
  WithTransforms ord2 (WithTransforms ord1 m first) second
  = WithTransforms ord2 m (first ++ second).
Proof.
  intros Hsecond. unfold WithTransforms at 2 3.
  destruct (err m) as [e|] eqn:He.
  { unfold WithTransforms. by rewrite He. }
  destruct (mut m) as [pm|] eqn:Hm; [|done].
  destruct (is_Mutation_Delete (Operation pm)) eqn:Hd; [done|].
  rewrite WithTransforms_loop_app.
  pose proof (WithTransforms_loop_Operation pm first) as Hop.
  destruct (WithTransforms_loop pm first) as [pm1 [e1|]]; [done|].
  simpl in Hop. unfold WithTransforms. simpl.
  rewrite setMask_Operation, Hop, Hd.
  rewrite !WithTransforms_loop_initialized by done.
  by rewrite setMask_appended.
Qed.

Lemma X10_WithTransforms_composes_witness :
  WithTransforms Fixture.reversed
    (WithTransforms Fixture.in_order (NewInsert Fixture.keyK Fixture.src_xy)
       [Fixture.tA])
    [Fixture.tB; Fixture.tC]
  = WithTransforms Fixture.reversed (NewInsert Fixture.keyK Fixture.src_xy)
      ([Fixture.tA] ++ [Fixture.tB; Fixture.tC]).
Proof.
  apply (X10_WithTransforms_composes (C := Fixture.double)).
  constructor; [by eexists|]. constructor; [by eexists|]. constructor.
Defined.

(** X11: on a non-delete mutation without error and without
    transforms, as the constructors return it, [WithTransforms] with
    no transform returns the mutation as it was: no mask is set, so
    the mutation still writes all its properties. *)
Theorem X11_no_transform_no_change {C : Collaborators} (ord : MapOrder) (m : Mutation)
    (pm : pbMutation) :
  err m = None → mut m = Some pm →
  is_Mutation_Delete (Operation pm) = false →
  PropertyTransforms pm = [] →
  WithTransforms ord m [] = m.
Proof.
  intros He Hm Hd Hts. unfold WithTransforms. rewrite He, Hm, Hd. simpl.
  unfold setMutationProtoPropertyMaskForTransforms. rewrite Hts. simpl.
  destruct m; simpl in *. by subst.
Qed.

Lemma X11_no_transform_no_change_witness :
  WithTransforms Fixture.in_order (NewUpsert Fixture.keyL Fixture.src_xy) []
  = NewUpsert Fixture.keyL Fixture.src_xy.
Proof.
  apply (X11_no_transform_no_change (C := Fixture.double) Fixture.in_order
           (NewUpsert Fixture.keyL Fixture.src_xy)
           (pbMutation_of (Mutation_Upsert Fixture.entity_xy)));
    reflexivity.
Defined.

(** X12: the order in which the map of properties is visited shows
    in the result of [WithTransforms] only as the order of the mask
    paths: under two orders the results have the same key, error,
    operation and transforms, and masks that are both absent or list
    the same paths in some order. *)
Theorem X12_map_order_only_in_mask {C : Collaborators} (ord1 ord2 : MapOrder)
    (m : Mutation) (transforms : list PropertyTransform) :
  key (WithTransforms ord1 m transforms) = key (WithTransforms ord2 m transforms)
  ∧ err (WithTransforms ord1 m transforms) = err (WithTransforms ord2 m transforms)
  ∧ pbMutation_equiv (mut (WithTransforms ord1 m transforms))
                     (mut (WithTransforms ord2 m transforms)).
Proof.
  unfold WithTransforms.
  destruct (err m) as [e|]; [auto using pbMutation_equiv_refl|].
  destruct (mut m) as [pm|] eqn:Hm; simpl.
  2:{ rewrite Hm. auto using pbMutation_equiv_refl. }
  destruct (is_Mutation_Delete (Operation pm)); simpl.
  { rewrite Hm. auto using pbMutation_equiv_refl. }
  destruct (WithTransforms_loop pm transforms) as [pm1 [e1|]]; simpl.
  - auto using mask_equiv_refl.
  - split; [done|]. split; [done|]. apply setMask_orders.
Qed.

(** X13: computing the mask again replaces the mask computed before:
    on any message, [setMutationProtoPropertyMaskForTransforms] after
    itself gives what the last run alone gives, and without
    transforms the message is left as it is, its mask untouched. *)
Theorem X13_mask_recomputed {C : Collaborators} (ord1 ord2 : MapOrder)
    (pm : pbMutation) :
  setMutationProtoPropertyMaskForTransforms ord2
    (setMutationProtoPropertyMaskForTransforms ord1 pm)
  = setMutationProtoPropertyMaskForTransforms ord2 pm
  ∧ (PropertyTransforms pm = [] →
     setMutationProtoPropertyMaskForTransforms ord1 pm = pm).
Proof.
  split.
  - pose proof (setMask_appended ord1 ord2 pm []) as H.
    by rewrite !with_appended_nil in H.
  - intros Hts. unfold setMutationProtoPropertyMaskForTransforms. by rewrite Hts.
Qed.

Lemma X13_mask_recomputed_witness :
  setMutationProtoPropertyMaskForTransforms Fixture.reversed
    (Build_pbMutation (Some (Mutation_Insert Fixture.entity_xy))
       (Some {| Paths := ["stale"] |}) [])
  = Build_pbMutation (Some (Mutation_Insert Fixture.entity_xy))
      (Some {| Paths := ["stale"] |}) [].
Proof.
  apply (proj2 (X13_mask_recomputed (C := Fixture.double) Fixture.reversed
                  Fixture.in_order _)).
  reflexivity.
Defined.

(** ** The batch builder, further *)

Section Dedup.
Context {C : Collaborators}.
Implicit Types (m : Mutation) (muts earlier rest : list Mutation).

Lemma kept_mutations_emitted muts : kept_mutations muts = emitted_from [] muts.
Proof. by rewrite emitted_from_indexed. Qed.

Lemma delete_keys_cons m rest :
  delete_keys (m :: rest)
  = if is_delete m then key_string m :: delete_keys rest else delete_keys rest.
Proof. unfold delete_keys. rewrite filter_cons. by destruct (is_delete m). Qed.

Lemma non_deletes_cons m rest :
  non_deletes (m :: rest)
  = if is_delete m then non_deletes rest else m :: non_deletes rest.
Proof. unfold non_deletes. rewrite filter_cons. by destruct (is_delete m). Qed.

Lemma deleted_in_delete_keys earlier ks :
  deleted_in earlier ks = true ↔ ks ∈ delete_keys earlier.
Proof.
  induction earlier as [|m earlier IH]; simpl.
  - split; [done|]. by intros ?%elem_of_nil.
  - rewrite delete_keys_cons, orb_true_iff, IH.
    destruct (is_delete m); simpl.
    + rewrite elem_of_cons, bool_decide_eq_true.
      split; intros [?|?]; subst; auto.
    + split; [by intros [?|?]|auto].
Qed.

Lemma emitted_from_sublist earlier rest :
  emitted_from earlier rest `sublist_of` rest.
Proof.
  revert earlier. induction rest as [|m rest IH]; intros earlier; simpl; [done|].
  destruct (is_delete m && deleted_in earlier (key_string m)); simpl.
  - by apply sublist_cons.
  - by apply sublist_skip.
Qed.

Lemma emitted_from_non_deletes earlier rest :
  non_deletes (emitted_from earlier rest) = non_deletes rest.
Proof.
  revert earlier. induction rest as [|m rest IH]; intros earlier; simpl; [done|].
  rewrite non_deletes_cons.
  destruct (is_delete m) eqn:Hd; simpl.
  - destruct (deleted_in earlier (key_string m)); simpl; [apply IH|].
    by rewrite non_deletes_cons, Hd.
  - by rewrite non_deletes_cons, Hd, IH.
Qed.

Lemma emitted_from_fresh_keys earlier rest :
  NoDup (delete_keys (emitted_from earlier rest))
  ∧ ∀ ks, ks ∈ delete_keys (emitted_from earlier rest) →
          deleted_in earlier ks = false.
Proof.
  revert earlier. induction rest as [|m rest IH]; intros earlier; simpl.
  - split; [constructor|]. by intros ks ?%elem_of_nil.
  - destruct (IH (earlier ++ [m])) as [Hnodup Hfresh].
    assert (Hweak : ∀ ks, ks ∈ delete_keys (emitted_from (earlier ++ [m]) rest) →
                          deleted_in earlier ks = false).
    { intros ks Hin. specialize (Hfresh ks Hin).
      rewrite deleted_in_snoc in Hfresh. by apply orb_false_iff in Hfresh as [? _]. }
    destruct (is_delete m) eqn:Hd; simpl.
    + destruct (deleted_in earlier (key_string m)) eqn:Hdup; simpl; [done|].
      rewrite delete_keys_cons, Hd. split.
      * constructor; [|done]. intros Hin. specialize (Hfresh _ Hin).
        rewrite deleted_in_snoc, Hd in Hfresh. simpl in Hfresh.
        rewrite bool_decide_eq_true_2 in Hfresh by done.
        by rewrite orb_true_r in Hfresh.
      * intros ks [->|Hin]%elem_of_cons; auto.
    + by rewrite delete_keys_cons, Hd.
Qed.

Lemma emitted_from_covers earlier rest ks :
  ks ∈ delete_keys rest →
  deleted_in earlier ks = true ∨ ks ∈ delete_keys (emitted_from earlier rest).
Proof.
  revert earlier. induction rest as [|m rest IH]; intros earlier; simpl.
  - by intros ?%elem_of_nil.
  - rewrite delete_keys_cons. destruct (is_delete m) eqn:Hd; simpl.
    + intros [->|Hin]%elem_of_cons.
      * destruct (deleted_in earlier (key_string m)); simpl; [by left|].
        right. rewrite delete_keys_cons, Hd. by left.
      * destruct (IH (earlier ++ [m]) Hin) as [Hseen|Hlater].
        -- rewrite deleted_in_snoc, Hd in Hseen. simpl in Hseen.
           apply orb_true_iff in Hseen as [?|Heq]; [by left|].
           apply bool_decide_eq_true in Heq as <-.
           destruct (deleted_in earlier (key_string m)); simpl; [by left|].
           right. rewrite delete_keys_cons, Hd. by left.
        -- destruct (deleted_in earlier (key_string m)); simpl; [by right|].
           right. rewrite delete_keys_cons, Hd. by right.
    + intros Hin. destruct (IH (earlier ++ [m]) Hin) as [Hseen|Hlater].
      * rewrite deleted_in_snoc, Hd in Hseen. simpl in Hseen.
        rewrite orb_false_r in Hseen. by left.
      * right. by rewrite delete_keys_cons, Hd.
Qed.

Lemma emitted_from_distinct earlier rest :
  NoDup (delete_keys rest) →
  (∀ ks, ks ∈ delete_keys rest → deleted_in earlier ks = false) →
  emitted_from earlier rest = rest.
Proof.
  revert earlier. induction rest as [|m rest IH]; intros earlier; simpl; [done|].
  rewrite delete_keys_cons. destruct (is_delete m) eqn:Hd; simpl.
  - intros [Hnotin Hnodup]%NoDup_cons Hfresh.
    rewrite (Hfresh (key_string m)) by (by left). simpl. f_equal.
    apply IH; [done|]. intros ks Hin. rewrite deleted_in_snoc, Hd. simpl.
    rewrite (Hfresh ks) by (by right). simpl.
    apply bool_decide_eq_false. by intros <-.
  - intros Hnodup Hfresh. f_equal.
    apply IH; [done|]. intros ks Hin. rewrite deleted_in_snoc, Hd. simpl.
    rewrite orb_false_r. auto.
Qed.

Lemma sublist_delete_keys (kept muts : list Mutation) :
  kept `sublist_of` muts → delete_keys kept `sublist_of` delete_keys muts.
Proof.
  induction 1 as [|m kept muts _ IH|m kept muts _ IH]; [done| |];
    rewrite ?delete_keys_cons; destruct (is_delete m);
    auto using sublist_skip, sublist_cons.
Qed.


Lemma batch_valid_builds muts :
  Forall (λ m, err m = None ∧ is_Some (mut m)) muts →
  mutationProtos muts = Ret (mut <$> kept_mutations muts, None).
Proof.
  intros Hall. unfold mutationProtos. rewrite collect_errors_batch.
  assert (forallb no_error (err <$> muts) = true) as ->.
  { apply forallb_no_error_Forall. eapply Forall_impl; [done|]. by intros m [? _]. }
  rewrite collect_protos_batch; [done|].
  eapply Forall_impl; [done|]. by intros m [_ ?].
Qed.

End Dedup.

Lemma forallb_no_error_Exists {C : Collaborators} (muts : list Mutation) :
  forallb no_error (err <$> muts) = false ↔ Exists (λ m, is_Some (err m)) muts.
Proof.
  induction muts as [|m muts IH]; simpl.
  - split; [done|]. by intros ?%Exists_nil.
  - rewrite Exists_cons, <- IH. destruct (err m) as [e|]; simpl.
    + split; eauto.
    + split; [auto|]. intros [[? ?]|?]; done.
Qed.


(** X15: the empty batch builds to no message and no error. For any
    batch on which the builder returns, it returns an aggregate error
    exactly when some mutation carries an error, and then no message. *)
Theorem X15_error_or_messages {C : Collaborators} (muts : list Mutation) :
  mutationProtos (@nil Mutation) = Ret ([], None)
  ∧ ∀ out merr, mutationProtos muts = Ret (out, merr) →
      (is_Some merr ↔ Exists (λ m, is_Some (err m)) muts)
      ∧ (is_Some merr → out = []).
Proof.
  split; [done|]. intros out merr. unfold mutationProtos.
  rewrite collect_errors_batch.
  destruct (forallb no_error (err <$> muts)) eqn:Hnone.
  - destruct (collect_protos ∅ [] muts); simpl; [|done]. intros [= <- <-].
    split; [|by intros [? ?]]. split; [by intros [? ?]|].
    intros Hex%forallb_no_error_Exists. congruence.
  - simpl. intros [= <- <-]. split; [|done].
    split; [intros _; by apply forallb_no_error_Exists|eauto].
Qed.

Lemma X15_error_or_messages_witness :
  (is_Some (Some [None; Some (errIncompleteDelete Fixture.key_incomplete)])
   ↔ Exists (λ m, is_Some (err m))
       [NewDelete Fixture.keyK; NewDelete Fixture.key_incomplete])
  ∧ (is_Some (Some [None; Some (errIncompleteDelete Fixture.key_incomplete)]) →
     @nil (option (@pbMutation Fixture.double)) = []).
Proof.
  apply (proj2 (X15_error_or_messages (C := Fixture.double)
                  [NewDelete Fixture.keyK; NewDelete Fixture.key_incomplete])).
  reflexivity.
Defined.

(** X16: on a batch of mutations without error that have their
    message, the builder returns the messages of a sub-list of the
    batch: every message of the output is the message of a mutation of
    the input, as it is, the order is the input's, and nothing is
    added. *)
Theorem X16_output_is_sublist {C : Collaborators} (muts : list Mutation) :
  Forall (λ m, err m = None ∧ is_Some (mut m)) muts →
  mutationProtos muts = Ret (mut <$> kept_mutations muts, None)
  ∧ kept_mutations muts `sublist_of` muts
  ∧ length (mut <$> kept_mutations muts) ≤ length muts.
Proof.
  intros Hall. split; [by apply batch_valid_builds|].
  assert (Hsub : kept_mutations muts `sublist_of` muts).
  { rewrite kept_mutations_emitted. apply emitted_from_sublist. }
  split; [done|]. rewrite length_fmap. by apply sublist_length.
Qed.

Lemma X16_output_is_sublist_witness :
  mutationProtos [NewDelete Fixture.keyK; NewDelete Fixture.keyK]
  = Ret (mut <$> kept_mutations [NewDelete Fixture.keyK; NewDelete Fixture.keyK], None)
  ∧ kept_mutations [NewDelete Fixture.keyK; NewDelete Fixture.keyK]
    `sublist_of` [NewDelete Fixture.keyK; NewDelete Fixture.keyK]
  ∧ length (mut <$> kept_mutations [NewDelete Fixture.keyK; NewDelete Fixture.keyK])
    ≤ length [NewDelete Fixture.keyK; NewDelete Fixture.keyK].
Proof.
  apply (X16_output_is_sublist (C := Fixture.double)).
  repeat (constructor; [split; [reflexivity|eexists; reflexivity]|]).
  constructor.
Defined.

(** X17: on such a batch, among the mutations whose messages the
    builder returns no two Deletes have the same key string, the key
    strings deleted are exactly those the batch deletes, and the
    mutations that are not Deletes are all there, in order. *)
Theorem X17_dedup_loses_nothing {C : Collaborators} (muts : list Mutation) :
  Forall (λ m, err m = None ∧ is_Some (mut m)) muts →
  mutationProtos muts = Ret (mut <$> kept_mutations muts, None)
  ∧ NoDup (delete_keys (kept_mutations muts))
  ∧ (∀ ks, ks ∈ delete_keys (kept_mutations muts) ↔ ks ∈ delete_keys muts)
  ∧ non_deletes (kept_mutations muts) = non_deletes muts.
Proof.
  intros Hall. split; [by apply batch_valid_builds|].
  rewrite kept_mutations_emitted.
  split; [apply emitted_from_fresh_keys|]. split; [|apply emitted_from_non_deletes].
  intros ks. split.
  - intros Hin. eapply elem_of_sublist; [done|].
    apply sublist_delete_keys, emitted_from_sublist.
  - intros Hin. by destruct (emitted_from_covers [] muts ks Hin).
Qed.

Lemma X17_dedup_loses_nothing_witness :
  let muts := [NewDelete Fixture.keyK; NewInsert Fixture.keyK Fixture.src_xy;
               NewDelete Fixture.keyK; NewDelete Fixture.keyL] in
  mutationProtos muts = Ret (mut <$> kept_mutations muts, None)
  ∧ NoDup (delete_keys (kept_mutations muts))
  ∧ (∀ ks, ks ∈ delete_keys (kept_mutations muts) ↔ ks ∈ delete_keys muts)
  ∧ non_deletes (kept_mutations muts) = non_deletes muts.
Proof.
  intros muts. apply (X17_dedup_loses_nothing (C := Fixture.double) muts).
  repeat (constructor; [split; [reflexivity|eexists; reflexivity]|]).
  constructor.
Defined.

(** X18: on such a batch in which the Deletes have pairwise
    different key strings, in particular one without Delete, the
    builder returns the message of every mutation, in order. *)
Theorem X18_distinct_deletes_all_emitted {C : Collaborators} (muts : list Mutation) :
  Forall (λ m, err m = None ∧ is_Some (mut m)) muts →
  NoDup (delete_keys muts) →
  mutationProtos muts = Ret (mut <$> muts, None).
Proof.
  intros Hall Hnodup. rewrite batch_valid_builds by done.
  rewrite kept_mutations_emitted, emitted_from_distinct; done.
Qed.

Lemma X18_distinct_deletes_all_emitted_witness :
  mutationProtos [NewDelete Fixture.keyK; NewUpsert Fixture.keyK Fixture.src_xy;
                  NewDelete Fixture.keyL]
  = Ret (mut <$> [NewDelete Fixture.keyK; NewUpsert Fixture.keyK Fixture.src_xy;
                  NewDelete Fixture.keyL], None).
Proof.
  apply (X18_distinct_deletes_all_emitted (C := Fixture.double)).
  - repeat (constructor; [split; [reflexivity|eexists; reflexivity]|]).
    constructor.
  - apply (NoDup_cons_2 "/K,1" ["/L,1"]).
    + intros Hin. apply list_elem_of_singleton in Hin. discriminate Hin.
    + apply NoDup_singleton.
Defined.

(** X19: building is idempotent on such a batch: the mutations whose
    messages the builder returned, given to the builder again, all
    have their messages returned. *)
Theorem X19_dedup_idempotent {C : Collaborators} (muts : list Mutation) :
  Forall (λ m, err m = None ∧ is_Some (mut m)) muts →
  mutationProtos muts = Ret (mut <$> kept_mutations muts, None)
  ∧ mutationProtos (kept_mutations muts) = Ret (mut <$> kept_mutations muts, None).
Proof.
  intros Hall. split; [by apply batch_valid_builds|].
  rewrite kept_mutations_emitted.
  assert (Hkept : Forall (λ m, err m = None ∧ is_Some (mut m)) (emitted_from [] muts)).
  { rewrite Forall_forall in *. intros m Hin. apply Hall.
    eapply elem_of_sublist; [done|apply emitted_from_sublist]. }
  rewrite batch_valid_builds by done.
  rewrite kept_mutations_emitted, emitted_from_distinct; [done| |done].
  apply emitted_from_fresh_keys.
Qed.

Lemma X19_dedup_idempotent_witness :
  let muts := [NewDelete Fixture.keyK; NewDelete Fixture.keyL;
               NewDelete Fixture.keyK] in
  mutationProtos muts = Ret (mut <$> kept_mutations muts, None)
  ∧ mutationProtos (kept_mutations muts) = Ret (mut <$> kept_mutations muts, None).
Proof.
  intros muts. apply (X19_dedup_idempotent (C := Fixture.double) muts).
  repeat (constructor; [split; [reflexivity|eexists; reflexivity]|]).
  constructor.
Defined.
